(** * PandaProxy: the FTP passthrough proxy ([pandaproxy/ftp_proxy.py])

    A shallow embedding of [FTPProxy] and of the asyncio objects it drives.

    - Python exceptions are an inductive type with the class tests the
      [except] clauses perform.
    - A [StreamReader] is the queue of what the transport still delivers; a
      [StreamWriter] records the chunks handed to [write], in order.
    - The coroutine [forward] is a step function between its two [await]
      points; the byte pipe [_forward_bidirectional] steps under an
      arbitrary schedule of its two direction tasks.
    - [asyncio.Server] objects live in a heap and are referred to by index,
      since the proxy keeps references to servers it has already closed.
    - [start], [stop] and the acceptance of a connection are functions on
      the [World]: the proxy object, the server heap and the connection
      tasks.  [stop_during] is [stop] together with what the event loop
      runs while [stop] is suspended in each of its awaits. *)

From Stdlib Require Import ZArith List Lia Bool String.
From stdpp Require Import base tactics option list gmap sets.

Local Open Scope Z_scope.

(** ** Exceptions *)

Module Exn.

(** The exception classes that [asyncio.start_server], [asyncio.wait_for],
    [asyncio.open_connection] and the stream operations raise, and
    [CancelledError], which a cancelled task receives at its [await]. *)
Inductive exn : Type :=
  | CancelledError
  | TimeoutError
  | ConnectionRefusedError
  | ConnectionResetError
  | BrokenPipeError
  | OSError
  | RuntimeError.

#[global] Instance exn_eq_dec : EqDecision exn.
Proof. solve_decision. Defined.

(** [isinstance(e, Exception)]: [CancelledError] derives from
    [BaseException] only. *)
Definition isinstance_Exception (e : exn) : bool :=
  match e with
  | CancelledError => false
  | _ => true
  end.

(** [isinstance(e, OSError)]: the builtin [TimeoutError] and the connection
    errors are subclasses of [OSError]. *)
Definition isinstance_OSError (e : exn) : bool :=
  match e with
  | TimeoutError | ConnectionRefusedError | ConnectionResetError
  | BrokenPipeError | OSError => true
  | CancelledError | RuntimeError => false
  end.

(** The outcome of a call: it returns a value or raises. *)
Inductive result (A : Type) : Type :=
  | Returned (a : A)
  | Raised (e : exn).
Arguments Returned {A} a.
Arguments Raised {A} e.

End Exn.
Export Exn.

(** ** Log records *)

Inductive level : Type := DEBUG | INFO | WARNING.

Inductive message : Type :=
  | MsgStarting (bind_address : string) (port : Z)
  | MsgCouldNotBind (port : Z) (e : exn)
  | MsgListening (port data_start data_end : Z)
  | MsgStopping
  | MsgStopped
  | MsgConnectionFrom (port_type : string) (port : Z)
  | MsgConnected (printer_ip : string) (port : Z)
  | MsgTimedOut (printer_ip : string) (port : Z)
  | MsgRefused (printer_ip : string) (port : Z)
  | MsgConnectionError (port_type : string) (e : exn)
  | MsgConnectionClosed (port_type : string)
  | MsgForwardError (direction : string) (e : exn).

Definition log_record : Type := level * message.

(** ** Streams *)

Module Stream.

Definition bytes : Type := list Byte.byte.

(** What the transport delivers to a reader: a segment of bytes, or an
    exception raised at the next [read]. *)
Inductive delivery : Type :=
  | Arrive (seg : bytes)
  | Fail (e : exn).

(** A [StreamReader]: the deliveries still to come.  When none is left the
    peer has closed and [read] returns [b''] (EOF). *)
Definition StreamReader : Type := list delivery.

(** [await reader.read(n)]: at most [n] bytes of what has arrived; the rest
    of the segment stays buffered. *)
Definition read (n : Z) (r : StreamReader) : result bytes * StreamReader :=
  match r with
  | [] => (Returned [], [])
  | Arrive seg :: rest =>
      if Z.of_nat (length seg) <=? n then (Returned seg, rest)
      else (Returned (take (Z.to_nat n) seg),
            Arrive (drop (Z.to_nat n) seg) :: rest)
  | Fail e :: rest => (Raised e, rest)
  end.

(** A [StreamWriter]: the chunks passed to [write] so far, the outcomes of
    the [drain] calls still to come ([None]: the drain completes; when the
    list is exhausted every drain completes), and whether it was closed. *)
Record StreamWriter : Type := mkWriter {
  sent : list bytes;
  drains : list (option exn);
  closed : bool
}.

Definition write (data : bytes) (w : StreamWriter) : StreamWriter :=
  {| sent := sent w ++ [data]; drains := drains w; closed := closed w |}.

Definition drain (w : StreamWriter) : result unit * StreamWriter :=
  match drains w with
  | [] => (Returned tt, w)
  | None :: rest =>
      (Returned tt, {| sent := sent w; drains := rest; closed := closed w |})
  | Some e :: rest =>
      (Raised e, {| sent := sent w; drains := rest; closed := closed w |})
  end.

(** Modelled from the spec: [pandaproxy.helper.close_writer], which is not
    among the sources.  The spec (4.H, graceful close) has it half-close,
    drain with a bounded timeout, fully close, and swallow reset errors: the
    writer ends up closed and nothing is raised. *)
Definition close_writer (w : StreamWriter) : StreamWriter :=
  {| sent := sent w; drains := drains w; closed := true |}.

(** The bytes a reader delivers before its first failure or EOF marker. *)
Fixpoint deliverable (r : StreamReader) : bytes :=
  match r with
  | Arrive [] :: _ => []
  | Arrive seg :: rest => seg ++ deliverable rest
  | _ => []
  end.

(** A bound on the number of reads a reader can serve. *)
Fixpoint reads_left (r : StreamReader) : nat :=
  match r with
  | [] => 0
  | Arrive seg :: rest => S (length seg + reads_left rest)
  | Fail _ :: rest => S (reads_left rest)
  end.

End Stream.
Export Stream.

(** ** The coroutine [forward] *)

Module Forward.

(** Program points of [forward]: suspended in [await src.read(65536)],
    suspended in [await dst.drain()], or finished, with the outcome of the
    task ([Raised CancelledError]: the task was cancelled). *)
Inductive fpc : Type :=
  | AtRead
  | AtDrain
  | FDone (r : result unit).

Record ftask : Type := mkTask {
  direction : string;
  src : StreamReader;
  dst : StreamWriter;
  pc : fpc;
  must_cancel : bool;          (* [task.cancel()] was called *)
  got : list bytes;            (* the chunks [read] returned, in order *)
  flog : list log_record
}.

Definition create_task (direction : string) (src : StreamReader)
    (dst : StreamWriter) : ftask :=
  {| direction := direction; src := src; dst := dst; pc := AtRead;
     must_cancel := false; got := []; flog := [] |}.

Definition done (t : ftask) : bool :=
  match pc t with
  | FDone _ => true
  | _ => false
  end.

(** [task.cancel()]: no effect on a finished task. *)
Definition cancel (t : ftask) : ftask :=
  if done t then t
  else {| direction := direction t; src := src t; dst := dst t; pc := pc t;
          must_cancel := true; got := got t; flog := flog t |}.

(** The [except] clauses of [forward]:
    [except asyncio.CancelledError: raise] and
    [except Exception as e: logger.debug(...)]. *)
Definition on_raise (e : exn) (src' : StreamReader) (dst' : StreamWriter)
    (t : ftask) : ftask :=
  if decide (e = CancelledError) then
    {| direction := direction t; src := src'; dst := dst';
       pc := FDone (Raised e);
       must_cancel := must_cancel t; got := got t; flog := flog t |}
  else if isinstance_Exception e then
    {| direction := direction t; src := src'; dst := dst';
       pc := FDone (Returned tt);
       must_cancel := must_cancel t; got := got t;
       flog := flog t ++ [(DEBUG, MsgForwardError (direction t) e)] |}
  else
    {| direction := direction t; src := src'; dst := dst';
       pc := FDone (Raised e);
       must_cancel := must_cancel t; got := got t; flog := flog t |}.

(** One resumption of the task: from one [await] to the next.
<<
    while True:
        data = await src.read(65536)
        if not data:
            break
        dst.write(data)
        await dst.drain()
>>
    A task whose cancellation was requested receives [CancelledError] at the
    [await] it is suspended in. *)
Definition forward_step (t : ftask) : ftask :=
  match pc t with
  | FDone _ => t
  | AtRead =>
      if must_cancel t then on_raise CancelledError (src t) (dst t) t
      else
        match read 65536 (src t) with
        | (Returned [], src') =>
            {| direction := direction t; src := src'; dst := dst t;
               pc := FDone (Returned tt); must_cancel := must_cancel t;
               got := got t ++ [[]]; flog := flog t |}
        | (Returned data, src') =>
            {| direction := direction t; src := src';
               dst := write data (dst t);
               pc := AtDrain; must_cancel := must_cancel t;
               got := got t ++ [data]; flog := flog t |}
        | (Raised e, src') => on_raise e src' (dst t) t
        end
  | AtDrain =>
      if must_cancel t then on_raise CancelledError (src t) (dst t) t
      else
        match drain (dst t) with
        | (Returned _, dst') =>
            {| direction := direction t; src := src t; dst := dst';
               pc := AtRead; must_cancel := must_cancel t;
               got := got t; flog := flog t |}
        | (Raised e, dst') => on_raise e (src t) dst' t
        end
  end.

(** [forward] run on its own: resume the task [fuel] times. *)
Fixpoint forward (fuel : nat) (t : ftask) : ftask :=
  match fuel with
  | O => t
  | S fuel' => forward fuel' (forward_step t)
  end.

(** Resumptions that suffice for the task to finish. *)
Definition enough (t : ftask) : nat :=
  match pc t with
  | FDone _ => 0
  | AtRead => 2 * reads_left (src t) + 1
  | AtDrain => 2 * reads_left (src t) + 2
  end.

End Forward.
Export Forward.

(** ** The byte pipe [_forward_bidirectional] *)

Module Pipe.

(** [task1] copies client to printer, [task2] printer to client. *)
Inductive dir : Type := Task1 | Task2.

#[global] Instance dir_eq_dec : EqDecision dir.
Proof. solve_decision. Defined.

(** What the event loop does next: resume one of the two direction tasks,
    resume the pipe coroutine itself, or deliver a cancellation of the
    enclosing connection task to the pipe. *)
Inductive sched : Type :=
  | Resume (d : dir)
  | Wake
  | CancelOuter.

(** Program points of the pipe: suspended in [await asyncio.wait(...)],
    suspended in [await task] for the head of the pending tasks still to be
    cancelled and awaited, returned, or left by an exception. *)
Inductive ppc : Type :=
  | PWait
  | PAwait (pending : list dir)
  | PReturned
  | PRaised (e : exn).

Record pipe : Type := mkPipe {
  task1 : ftask;
  task2 : ftask;
  at_pc : ppc
}.

Definition get (d : dir) (p : pipe) : ftask :=
  match d with
  | Task1 => task1 p
  | Task2 => task2 p
  end.

Definition set (d : dir) (t : ftask) (p : pipe) : pipe :=
  match d with
  | Task1 => {| task1 := t; task2 := task2 p; at_pc := at_pc p |}
  | Task2 => {| task1 := task1 p; task2 := t; at_pc := at_pc p |}
  end.

Definition goto (c : ppc) (p : pipe) : pipe :=
  {| task1 := task1 p; task2 := task2 p; at_pc := c |}.

(** Entry of the coroutine: both tasks are created, then the pipe waits. *)
Definition _forward_bidirectional (client_reader : StreamReader)
    (client_writer : StreamWriter) (upstream_reader : StreamReader)
    (upstream_writer : StreamWriter) : pipe :=
  {| task1 := create_task "client->printer" client_reader upstream_writer;
     task2 := create_task "printer->client" upstream_reader client_writer;
     at_pc := PWait |}.

(** The tasks [asyncio.wait] reports as pending. *)
Definition pending_tasks (p : pipe) : list dir :=
  filter (λ d, done (get d p) = false) [Task1; Task2].

(** [for task in pending: task.cancel(); with suppress(CancelledError):
    await task]: cancel the next pending task and await it, or return when
    none is left. *)
Definition cancel_next (l : list dir) (p : pipe) : pipe :=
  match l with
  | [] => goto PReturned p
  | d :: _ => goto (PAwait l) (set d (cancel (get d p)) p)
  end.

Definition pipe_step (ev : sched) (p : pipe) : pipe :=
  match at_pc p with
  | PReturned | PRaised _ => p
  | PWait =>
      match ev with
      | Resume d => set d (forward_step (get d p)) p
      | Wake =>
          (* FIRST_COMPLETED: the wait is over once a task is done *)
          if done (task1 p) || done (task2 p)
          then cancel_next (pending_tasks p) p
          else p
      | CancelOuter =>
          (* except asyncio.CancelledError:
                 task1.cancel(); task2.cancel(); raise *)
          {| task1 := cancel (task1 p); task2 := cancel (task2 p);
             at_pc := PRaised CancelledError |}
      end
  | PAwait [] => goto PReturned p
  | PAwait (d :: rest) =>
      match ev with
      | Resume d' => set d' (forward_step (get d' p)) p
      | Wake =>
          match pc (get d p) with
          | FDone (Returned _) => cancel_next rest p
          | FDone (Raised e) =>
              if decide (e = CancelledError) then cancel_next rest p
              else goto (PRaised e) p
          | _ => p
          end
      | CancelOuter =>
          (* cancelling the awaiting task cancels the awaited one; the
             CancelledError then surfaces at [await task], inside
             [suppress] *)
          set d (cancel (get d p)) p
      end
  end.

Definition run_pipe (evs : list sched) (p : pipe) : pipe :=
  foldl (λ p ev, pipe_step ev p) p evs.

End Pipe.
Export Pipe.

(** ** The per-connection coroutine [_handle_connection] *)

Module Handler.

(** What the handler asks of the outside world, in order. *)
Inductive action : Type :=
  | OpenConnection (host : string) (port : Z) (timeout : Z)
  | Splice
  | CloseWriter (which : string).

(** What happens to a suspended handler: the upstream connect completes or
    raises, the event loop schedules the byte pipe, or the connection task
    is cancelled. *)
Inductive hevent : Type :=
  | Connected (upstream_reader : StreamReader) (upstream_writer : StreamWriter)
  | ConnectFailed (e : exn)
  | Run (s : sched)
  | Cancel.

(** Program points: suspended in
    [await asyncio.wait_for(asyncio.open_connection(...), timeout=10.0)],
    suspended in [await self._forward_bidirectional(...)], or finished. *)
Inductive hpc : Type :=
  | HConnecting
  | HPiping (p : pipe)
  | HDone (r : result unit).

(** While the handler is suspended in the pipe, the two writers are the
    [dst] of the direction tasks; [client_writer] and [upstream_writer] are
    brought up to date when the pipe is left. *)
Record handler : Type := mkHandler {
  h_port : Z;
  port_type : string;
  client_reader : StreamReader;
  client_writer : StreamWriter;
  upstream_writer : option StreamWriter;
  h_pc : hpc;
  h_actions : list action;
  h_log : list log_record
}.

Definition hdone (h : handler) : bool :=
  match h_pc h with
  | HDone _ => true
  | _ => false
  end.

(** Entry of [_handle_connection(client_reader, client_writer, port)] on a
    proxy whose control port is [self_port]: up to the first [await]. *)
Definition _handle_connection (printer_ip : string) (self_port : Z)
    (client_reader : StreamReader) (client_writer : StreamWriter)
    (port : Z) : handler :=
  let port_type : string :=
    if decide (port = self_port) then "control"%string else "data"%string in
  {| h_port := port;
     port_type := port_type;
     client_reader := client_reader;
     client_writer := client_writer;
     upstream_writer := None;
     h_pc := HConnecting;
     h_actions := [OpenConnection printer_ip port 10];
     h_log := [(DEBUG, MsgConnectionFrom port_type port)] |}.

(** The [finally] block: close the client writer, close the upstream writer
    if it was opened, and finish with outcome [r].  (Removing the task from
    [_active_connections] acts on the proxy and is done in [World].) *)
Definition finally (r : result unit) (cw : StreamWriter)
    (uw : option StreamWriter) (h : handler) : handler :=
  {| h_port := h_port h;
     port_type := port_type h;
     client_reader := client_reader h;
     client_writer := close_writer cw;
     upstream_writer := close_writer <$> uw;
     h_pc := HDone r;
     h_actions :=
       h_actions h ++ [CloseWriter "client"] ++
       match uw with
       | Some _ => [CloseWriter "upstream"]
       | None => []
       end;
     h_log := h_log h ++ [(DEBUG, MsgConnectionClosed (port_type h))] |}.

Definition add_log (r : log_record) (h : handler) : handler :=
  {| h_port := h_port h; port_type := port_type h;
     client_reader := client_reader h; client_writer := client_writer h;
     upstream_writer := upstream_writer h; h_pc := h_pc h;
     h_actions := h_actions h; h_log := h_log h ++ [r] |}.

(** An exception [e] leaves the [try] body: the [except] clauses, then the
    [finally] block.
<<
    except TimeoutError:            logger.warning(...)
    except ConnectionRefusedError:  logger.debug(...)
    except Exception as e:          logger.debug(...)
>> *)
Definition on_exception (printer_ip : string) (e : exn) (cw : StreamWriter)
    (uw : option StreamWriter) (h : handler) : handler :=
  if decide (e = TimeoutError) then
    finally (Returned tt) cw uw
      (add_log (WARNING, MsgTimedOut printer_ip (h_port h)) h)
  else if decide (e = ConnectionRefusedError) then
    finally (Returned tt) cw uw
      (add_log (DEBUG, MsgRefused printer_ip (h_port h)) h)
  else if isinstance_Exception e then
    finally (Returned tt) cw uw
      (add_log (DEBUG, MsgConnectionError (port_type h) e) h)
  else
    finally (Raised e) cw uw h.

(** The pipe was resumed and is now [p]: stay suspended in it, or leave it
    the way it was left. *)
Definition after_pipe (printer_ip : string) (p : pipe) (h : handler)
    : handler :=
  match at_pc p with
  | PReturned =>
      finally (Returned tt) (dst (task2 p)) (Some (dst (task1 p))) h
  | PRaised e =>
      on_exception printer_ip e (dst (task2 p)) (Some (dst (task1 p))) h
  | _ =>
      {| h_port := h_port h; port_type := port_type h;
         client_reader := client_reader h; client_writer := client_writer h;
         upstream_writer := upstream_writer h; h_pc := HPiping p;
         h_actions := h_actions h; h_log := h_log h |}
  end.

Definition handler_step (printer_ip : string) (ev : hevent) (h : handler)
    : handler :=
  match h_pc h with
  | HDone _ => h
  | HConnecting =>
      match ev with
      | Connected upstream_reader upstream_writer =>
          {| h_port := h_port h; port_type := port_type h;
             client_reader := client_reader h;
             client_writer := client_writer h;
             upstream_writer := Some upstream_writer;
             h_pc := HPiping (_forward_bidirectional (client_reader h)
                                (client_writer h) upstream_reader
                                upstream_writer);
             h_actions := h_actions h ++ [Splice];
             h_log := h_log h ++
                      [(DEBUG, MsgConnected printer_ip (h_port h))] |}
      | ConnectFailed e =>
          on_exception printer_ip e (client_writer h) None h
      | Cancel =>
          on_exception printer_ip CancelledError (client_writer h) None h
      | Run _ => h
      end
  | HPiping p =>
      match ev with
      | Run s => after_pipe printer_ip (pipe_step s p) h
      | Cancel => after_pipe printer_ip (pipe_step CancelOuter p) h
      | Connected _ _ | ConnectFailed _ => h
      end
  end.

Definition run_handler (printer_ip : string) (evs : list hevent)
    (h : handler) : handler :=
  foldl (λ h ev, handler_step printer_ip ev h) h evs.

(** The direction tasks the pipe of a suspended handler is still awaiting
    after it has cancelled them. *)
Definition awaited (h : handler) : list dir :=
  match h_pc h with
  | HPiping p =>
      match at_pc p with
      | PAwait l => l
      | _ => []
      end
  | _ => []
  end.

(** [asyncio.gather] on a cancelled connection task: the event loop resumes
    each awaited direction task and then the handler, until the handler is
    done. *)
Definition settle (printer_ip : string) (h : handler) : handler :=
  foldl (λ h d, handler_step printer_ip (Run Wake)
                  (handler_step printer_ip (Run (Resume d)) h))
        h (awaited h).

End Handler.
Export Handler.

(** ** The proxy object and its world *)

Module Proxy.

(** Modelled from the spec: the constant [FTP_PORT] of [pandaproxy.protocol],
    which is not among the sources.  The spec (4.F and 6) and the module
    docstring give the FTP control port as 990. *)
Definition FTP_PORT : Z := 990.

Definition FTP_DATA_PORT_START : Z := 2000.
Definition FTP_DATA_PORT_END : Z := 2100.

(** [range(FTP_DATA_PORT_START, FTP_DATA_PORT_END + 1)] *)
Definition data_port_range : list Z :=
  seqZ FTP_DATA_PORT_START (FTP_DATA_PORT_END + 1 - FTP_DATA_PORT_START).

(** The callback given to [asyncio.start_server]:
    [lambda r, w: self._handle_connection(r, w, self.port)] or
    [lambda r, w, p=data_port: self._handle_connection(r, w, p)]. *)
Inductive callback : Type :=
  | ControlCallback
  | DataCallback (p : Z).

(** An [asyncio.Server] object. *)
Record Server : Type := mkServer {
  bound_port : Z;
  client_connected_cb : callback;
  is_serving : bool
}.

(** The attributes of an [FTPProxy]; servers and tasks are references into
    the world's heaps. *)
Record FTPProxy : Type := mkProxy {
  printer_ip : string;
  bind_address : string;
  port : Z;
  _control_server : option nat;
  _data_servers : list nat;
  _running : bool;
  _active_connections : gset nat
}.

Record World : Type := mkWorld {
  proxy : FTPProxy;
  servers : list Server;      (* every server object created so far *)
  tasks : list handler        (* every connection task created so far *)
}.

(** [FTPProxy.__init__] in a world without servers or tasks. *)
Definition init (printer_ip bind_address : string) : World :=
  {| proxy := {| printer_ip := printer_ip; bind_address := bind_address;
                 port := FTP_PORT; _control_server := None;
                 _data_servers := []; _running := false;
                 _active_connections := ∅ |};
     servers := []; tasks := [] |}.

(** What a call does to the outside world, in order. *)
Inductive effect : Type :=
  | Log (r : log_record)
  | StartServer (host : string) (port : Z)
  | TaskCancel (tid : nat)
  | Gather (tids : list nat)
  | ServerClose (sid : nat)
  | ServerWaitClosed (sid : nat).

(** A finished call: how it ended, the world it left, and its effects. *)
Record call : Type := mkCall {
  outcome : result unit;
  after : World;
  trace : list effect
}.

Definition set_running (b : bool) (w : World) : World :=
  {| proxy := {| printer_ip := printer_ip (proxy w);
                 bind_address := bind_address (proxy w);
                 port := port (proxy w);
                 _control_server := _control_server (proxy w);
                 _data_servers := _data_servers (proxy w);
                 _running := b;
                 _active_connections := _active_connections (proxy w) |};
     servers := servers w; tasks := tasks w |}.

Definition set_control_server (c : option nat) (w : World) : World :=
  {| proxy := {| printer_ip := printer_ip (proxy w);
                 bind_address := bind_address (proxy w);
                 port := port (proxy w);
                 _control_server := c;
                 _data_servers := _data_servers (proxy w);
                 _running := _running (proxy w);
                 _active_connections := _active_connections (proxy w) |};
     servers := servers w; tasks := tasks w |}.

Definition set_data_servers (l : list nat) (w : World) : World :=
  {| proxy := {| printer_ip := printer_ip (proxy w);
                 bind_address := bind_address (proxy w);
                 port := port (proxy w);
                 _control_server := _control_server (proxy w);
                 _data_servers := l;
                 _running := _running (proxy w);
                 _active_connections := _active_connections (proxy w) |};
     servers := servers w; tasks := tasks w |}.

Definition set_active_connections (s : gset nat) (w : World) : World :=
  {| proxy := {| printer_ip := printer_ip (proxy w);
                 bind_address := bind_address (proxy w);
                 port := port (proxy w);
                 _control_server := _control_server (proxy w);
                 _data_servers := _data_servers (proxy w);
                 _running := _running (proxy w);
                 _active_connections := s |};
     servers := servers w; tasks := tasks w |}.

Definition set_servers (l : list Server) (w : World) : World :=
  {| proxy := proxy w; servers := l; tasks := tasks w |}.

Definition set_tasks (l : list handler) (w : World) : World :=
  {| proxy := proxy w; servers := servers w; tasks := l |}.

(** A successful [asyncio.start_server]: a new serving server object; its
    reference is its index in the heap. *)
Definition new_server (cb : callback) (p : Z) (w : World) : nat * World :=
  (length (servers w),
   set_servers (servers w ++ [{| bound_port := p; client_connected_cb := cb;
                                 is_serving := true |}]) w).

(** [server.close()]: the server stops listening; closing twice is
    harmless. *)
Definition close_server (s : Server) : Server :=
  {| bound_port := bound_port s; client_connected_cb := client_connected_cb s;
     is_serving := false |}.

Definition server_close (sid : nat) (w : World) : World :=
  set_servers (alter close_server sid (servers w)) w.

(** The loop of [start] over the data ports.  [bind p] is what
    [asyncio.start_server] does on port [p]: [None] when it binds, [Some e]
    when it raises [e].
<<
    for data_port in range(FTP_DATA_PORT_START, FTP_DATA_PORT_END + 1):
        try:
            server = await asyncio.start_server(..., data_port)
            self._data_servers.append(server)
        except OSError as e:
            logger.debug("Could not bind to port %d: %s", data_port, e)
>> *)
Fixpoint bind_data_ports (bind : Z → option exn) (ports : list Z)
    (w : World) (tr : list effect) : call :=
  match ports with
  | [] => {| outcome := Returned tt; after := w; trace := tr |}
  | data_port :: rest =>
      let tr := tr ++ [StartServer (bind_address (proxy w)) data_port] in
      match bind data_port with
      | None =>
          let '(server, w) := new_server (DataCallback data_port) data_port w in
          bind_data_ports bind rest
            (set_data_servers (_data_servers (proxy w) ++ [server]) w) tr
      | Some e =>
          if isinstance_OSError e then
            bind_data_ports bind rest w
              (tr ++ [Log (DEBUG, MsgCouldNotBind data_port e)])
          else {| outcome := Raised e; after := w; trace := tr |}
      end
  end.

(** [FTPProxy.start] *)
Definition start (bind : Z → option exn) (w : World) : call :=
  if _running (proxy w) then
    {| outcome := Returned tt; after := w; trace := [] |}
  else
    let tr := [Log (INFO, MsgStarting (bind_address (proxy w))
                            (port (proxy w)));
               StartServer (bind_address (proxy w)) (port (proxy w))] in
    let w := set_running true w in
    match bind (port (proxy w)) with
    | Some e => {| outcome := Raised e; after := w; trace := tr |}
    | None =>
        let '(server, w) := new_server ControlCallback (port (proxy w)) w in
        let w := set_control_server (Some server) w in
        let c := bind_data_ports bind data_port_range w tr in
        match outcome c with
        | Returned _ =>
            {| outcome := Returned tt; after := after c;
               trace := trace c ++
                 [Log (INFO, MsgListening (port (proxy w))
                               FTP_DATA_PORT_START FTP_DATA_PORT_END)] |}
        | Raised _ => c
        end
    end.

(** Cancelling a connection task and gathering it: [CancelledError] is
    thrown into the handler at the [await] it is suspended in, and the event
    loop runs it until it is done. *)
Definition cancel_and_gather (w : World) (tid : nat) : World :=
  set_tasks (alter (λ h, settle (printer_ip (proxy w))
                           (handler_step (printer_ip (proxy w)) Cancel h))
               tid (tasks w)) w.

(** [FTPProxy.stop] when the event loop runs nothing but the cancelled
    tasks while [stop] is suspended: no client connects and no other task
    is resumed before [stop] returns.  What else can happen at the awaits
    of [stop] is in [stop_during] below, of which this is the case without
    events. *)
Definition stop (w : World) : call :=
  let w := set_running false w in
  (* for task in list(self._active_connections): task.cancel()
     if self._active_connections: await asyncio.gather(...) *)
  let active := elements (_active_connections (proxy w)) in
  let tr := [Log (INFO, MsgStopping)] ++ (TaskCancel <$> active) ++
            (if bool_decide (active = []) then [] else [Gather active]) in
  let w := foldl cancel_and_gather w active in
  (* self._active_connections.clear() *)
  let w := set_active_connections ∅ w in
  (* if self._control_server: close(); await wait_closed() *)
  let '(w, tr) :=
    match _control_server (proxy w) with
    | Some c => (server_close c w, tr ++ [ServerClose c; ServerWaitClosed c])
    | None => (w, tr)
    end in
  (* for server in self._data_servers: server.close()
     for server in self._data_servers: await server.wait_closed() *)
  let data := _data_servers (proxy w) in
  let w := foldl (λ w sid, server_close sid w) w data in
  let tr := tr ++ (ServerClose <$> data) ++ (ServerWaitClosed <$> data) in
  (* self._data_servers.clear() *)
  let w := set_data_servers [] w in
  {| outcome := Returned tt; after := w;
     trace := tr ++ [Log (INFO, MsgStopped)] |}.

(** A client connects to the listener [sid]: its callback starts
    [_handle_connection] as a new task, which registers itself in
    [_active_connections] and suspends in the upstream connect.  Nothing
    happens when [sid] is not a serving server. *)
Definition accept (sid : nat) (client_reader : StreamReader)
    (client_drains : list (option exn)) (w : World) : World :=
  match servers w !! sid with
  | Some srv =>
      if is_serving srv then
        let p := match client_connected_cb srv with
                 | ControlCallback => port (proxy w)
                 | DataCallback p => p
                 end in
        let task := length (tasks w) in
        let h := _handle_connection (printer_ip (proxy w)) (port (proxy w))
                   client_reader
                   {| sent := []; drains := client_drains; closed := false |}
                   p in
        set_active_connections ({[task]} ∪ _active_connections (proxy w))
          (set_tasks (tasks w ++ [h]) w)
      else w
  | None => w
  end.

(** The event loop resumes connection task [tid] with event [ev]; a handler
    that finishes has run [self._active_connections.discard(task)]. *)
Definition resume (tid : nat) (ev : hevent) (w : World) : World :=
  match tasks w !! tid with
  | Some h =>
      if hdone h then w
      else
        let h' := handler_step (printer_ip (proxy w)) ev h in
        let w := set_tasks (<[tid := h']> (tasks w)) w in
        if hdone h'
        then set_active_connections (_active_connections (proxy w) ∖ {[tid]}) w
        else w
  | None => w
  end.

(** What the event loop can run while [stop] is suspended in an [await]: a
    client connects to a listener, or a connection task is resumed. *)
Inductive event : Type :=
  | Connects (sid : nat) (client_reader : StreamReader)
             (client_drains : list (option exn))
  | Resumes (tid : nat) (ev : hevent).

Definition happen (w : World) (e : event) : World :=
  match e with
  | Connects sid r ds => accept sid r ds w
  | Resumes tid ev => resume tid ev w
  end.

Definition events (evs : list event) (w : World) : World :=
  foldl happen w evs.

(** [task.cancel()] on connection task [tid]: [CancelledError] is thrown
    into the handler at the [await] it is suspended in.  (What the event
    loop ran on the task between the request and the throw is among what
    happened before [stop] was called.) *)
Definition cancel_task (w : World) (tid : nat) : World :=
  resume tid Cancel w.

(** [asyncio.gather] completes only when task [tid] is done: the event
    loop runs what is left of the cancelled task. *)
Definition gather_task (w : World) (tid : nat) : World :=
  match tasks w !! tid with
  | Some h =>
      let h' := settle (printer_ip (proxy w)) h in
      let w := set_tasks (<[tid := h']> (tasks w)) w in
      if hdone h'
      then set_active_connections (_active_connections (proxy w) ∖ {[tid]}) w
      else w
  | None => w
  end.

(** The connections, in [stop]; [at_gather] is what else the event loop
    runs while [stop] is suspended in [gather], with every listener still
    open.
<<
    for task in list(self._active_connections):
        task.cancel()
    if self._active_connections:
        await asyncio.gather(..., return_exceptions=True)
    self._active_connections.clear()
>>
    No task runs between the two loops, so the set tested and gathered is
    the one the first loop went through. *)
Definition stop_connections (at_gather : list event) (w : World)
    : World * list effect :=
  let active := elements (_active_connections (proxy w)) in
  let w := foldl cancel_task w active in
  let w := if bool_decide (active = []) then w
           else foldl gather_task (events at_gather w) active in
  (set_active_connections ∅ w,
   (TaskCancel <$> active) ++
   (if bool_decide (active = []) then [] else [Gather active])).

(** The control server, in [stop]; [at_control] is what the event loop runs
    while [stop] is suspended in [wait_closed], with the data listeners
    still open.  (How long asyncio stays in [wait_closed] is not in the
    sources: any events may pass, also none.)
<<
    if self._control_server:
        self._control_server.close()
        await self._control_server.wait_closed()
>> *)
Definition stop_control (at_control : list event) (w : World)
    : World * list effect :=
  match _control_server (proxy w) with
  | Some c =>
      (events at_control (server_close c w),
       [ServerClose c; ServerWaitClosed c])
  | None => (w, [])
  end.

(** The data servers, in [stop]; [at_data] is what the event loop runs
    while [stop] is suspended in the awaits of the second loop, which
    themselves change nothing.
<<
    for server in self._data_servers:
        server.close()
    for server in self._data_servers:
        await server.wait_closed()
    self._data_servers.clear()
>> *)
Definition stop_data (at_data : list event) (w : World)
    : World * list effect :=
  let data := _data_servers (proxy w) in
  let w := foldl (λ w sid, server_close sid w) w data in
  let w := if bool_decide (data = []) then w else events at_data w in
  (set_data_servers [] w,
   (ServerClose <$> data) ++ (ServerWaitClosed <$> data)).

(** [FTPProxy.stop], with what the event loop runs at each of its awaits. *)
Definition stop_during (at_gather at_control at_data : list event)
    (w : World) : call :=
  let w := set_running false w in
  let '(w, cancelled) := stop_connections at_gather w in
  let '(w, control) := stop_control at_control w in
  let '(w, data) := stop_data at_data w in
  {| outcome := Returned tt; after := w;
     trace := [Log (INFO, MsgStopping)] ++ cancelled ++ control ++ data ++
              [Log (INFO, MsgStopped)] |}.

(** What can happen to a proxy, one thing after the other; [Stop] is a
    call of [stop] during which nothing else happens, [StopDuring] a call
    of [stop] with what happens at its awaits. *)
Inductive op : Type :=
  | Start (bind : Z → option exn)
  | Stop
  | Accept (sid : nat) (client_reader : StreamReader)
           (client_drains : list (option exn))
  | Resumed (tid : nat) (ev : hevent)
  | StopDuring (at_gather at_control at_data : list event).

Definition exec (w : World) (o : op) : World :=
  match o with
  | Start bind => after (start bind w)
  | Stop => after (stop w)
  | Accept sid r ds => accept sid r ds w
  | Resumed tid ev => resume tid ev w
  | StopDuring g c d => after (stop_during g c d w)
  end.

Definition run (ops : list op) (w : World) : World := foldl exec w ops.

(** The listeners that are open, as (server, port). *)
Definition listening (w : World) : list Z :=
  bound_port <$> filter (λ s, is_serving s = true) (servers w).

(** The connection tasks that have not finished. *)
Definition in_flight (w : World) : list handler :=
  filter (λ h, hdone h = false) (tasks w).

End Proxy.
Export Proxy.

(** ** Sample inputs *)

Module Samples.

(** Every port binds. *)
Definition all_free : Z → option exn := λ _, None.

(** Data port 2050 is already in use. *)
Definition busy_2050 : Z → option exn :=
  λ p, if decide (p = 2050) then Some OSError else None.

(** The control port is already in use. *)
Definition control_busy : Z → option exn :=
  λ p, if decide (p = 990) then Some OSError else None.

Definition fresh : World := init "192.168.1.50" "0.0.0.0".

Definition hello : bytes := [Byte.x68; Byte.x65; Byte.x6c; Byte.x6c; Byte.x6f].

(** A proxy that was started, accepted a control connection and connected
    it to the printer, forwarded a chunk, and saw the client close. *)
Definition busy_session : list op :=
  [Start all_free;
   Accept 0 [Arrive hello] [];
   Resumed 0 (Connected [] {| sent := []; drains := []; closed := false |});
   Resumed 0 (Run (Resume Task1));
   Resumed 0 (Run (Resume Task1));
   Resumed 0 (Run (Resume Task1))].

End Samples.
Export Samples.

(** ** Properties stated about the model *)

Module Props.

(** A chunk fits the copy buffer of [forward]. *)
Definition fits_buffer (c : bytes) : Prop := Z.of_nat (length c) ≤ 65536.

(** Direction task [t], started on reader [r0] and writer [w0], has
    forwarded byte-exactly: the chunks written are the non-empty chunks
    read, in the same order; every chunk fits the copy buffer; what was read
    is an initial part of what the source delivers, and all of it once the
    source has reported EOF. *)
Definition byte_exact (r0 : StreamReader) (w0 : StreamWriter) (t : ftask)
    : Prop :=
  sent (dst t) = sent w0 ++ filter (λ c, length c ≠ 0%nat) (got t) ∧
  concat (sent (dst t)) = concat (sent w0) ++ concat (got t) ∧
  Forall fits_buffer (got t) ∧
  concat (got t) `prefix_of` deliverable r0 ∧
  (last (got t) = Some [] → concat (got t) = deliverable r0).

(** The invariant behind [byte_exact]: while the task runs, what it has read
    and what its source still delivers make up the whole stream. *)
Definition forwarding (D : bytes) (base : list bytes) (t : ftask) : Prop :=
  sent (dst t) = base ++ filter (λ c, length c ≠ 0%nat) (got t) ∧
  Forall fits_buffer (got t) ∧
  match pc t with
  | FDone _ =>
      concat (got t) `prefix_of` D ∧
      (last (got t) = Some [] → concat (got t) = D)
  | _ =>
      concat (got t) ++ deliverable (src t) = D ∧ last (got t) ≠ Some []
  end.

(** A direction task only ever ends by returning or by being cancelled. *)
Definition ends_well (t : ftask) : Prop :=
  ∀ e, pc t = FDone (Raised e) → e = CancelledError.

(** A direction task is finished, or will be at its next resumption. *)
Definition cancelled_or_done (t : ftask) : Prop :=
  done t = true ∨ must_cancel t = true.

(** What holds of the byte pipe at each of its program points: while it
    waits, no direction task was cancelled; while it awaits the pending
    tasks, the one awaited was cancelled and those not pending are done;
    it has returned only with both tasks done; it is left only by
    [CancelledError], with both tasks cancelled. *)
Definition pipe_ok (p : pipe) : Prop :=
  ends_well (task1 p) ∧ ends_well (task2 p) ∧
  match at_pc p with
  | PWait => must_cancel (task1 p) = false ∧ must_cancel (task2 p) = false
  | PAwait l =>
      (∃ d rest, l = d :: rest ∧ cancelled_or_done (get d p)) ∧
      (∀ d, d ∉ l → done (get d p) = true)
  | PReturned => done (task1 p) = true ∧ done (task2 p) = true
  | PRaised e =>
      e = CancelledError ∧
      cancelled_or_done (task1 p) ∧ cancelled_or_done (task2 p)
  end.

(** [asyncio.wait] with [FIRST_COMPLETED] on two tasks leaves at most one
    of them pending. *)
Definition one_pending (p : pipe) : Prop :=
  match at_pc p with
  | PAwait l => (length l ≤ 1)%nat
  | _ => True
  end.

(** What holds of a connection handler at each of its program points. *)
Definition handler_ok (h : handler) : Prop :=
  match h_pc h with
  | HConnecting => upstream_writer h = None
  | HPiping p =>
      pipe_ok p ∧ is_Some (upstream_writer h) ∧
      (at_pc p = PWait ∨ ∃ l, at_pc p = PAwait l)
  | HDone r =>
      (r = Returned tt ∨ r = Raised CancelledError) ∧
      closed (client_writer h) = true ∧
      (∀ uw, upstream_writer h = Some uw → closed uw = true)
  end.

(** The first thing a handler does is the upstream connect to the port it
    was accepted on, with the 10 second timeout; it connects once, and
    splices only after the connect. *)
Definition connects_first (ip : string) (h : handler) : Prop :=
  ∃ rest,
    h_actions h = OpenConnection ip (h_port h) 10 :: rest ∧
    (h_pc h = HConnecting → rest = []) ∧
    (∀ host p t, OpenConnection host p t ∉ rest).

(** Both direction tasks keep forwarding byte-exactly, whatever the
    schedule. *)
Definition pipe_forwarding (cr : StreamReader) (cw : StreamWriter)
    (ur : StreamReader) (uw : StreamWriter) (p : pipe) : Prop :=
  forwarding (deliverable cr) (sent uw) (task1 p) ∧
  forwarding (deliverable ur) (sent cw) (task2 p).

(** Two worlds differ at most in the servers and in [_data_servers]. *)
Definition same_but_servers (w w' : World) : Prop :=
  printer_ip (proxy w') = printer_ip (proxy w) ∧
  bind_address (proxy w') = bind_address (proxy w) ∧
  port (proxy w') = port (proxy w) ∧
  _control_server (proxy w') = _control_server (proxy w) ∧
  _running (proxy w') = _running (proxy w) ∧
  _active_connections (proxy w') = _active_connections (proxy w) ∧
  tasks w' = tasks w.

(** The server object a successful bind of data port [p] creates. *)
Definition data_server (p : Z) : Server :=
  {| bound_port := p; client_connected_cb := DataCallback p;
     is_serving := true |}.

(** The effects of the data-port loop of [start] when no bind raises
    anything but [OSError]: one bind attempt per port, followed by a debug
    record when it failed. *)
Definition data_port_effects (addr : string) (bind : Z → option exn)
    (ports : list Z) : list effect :=
  ports ≫= λ p,
    StartServer addr p ::
    match bind p with
    | Some e => [Log (DEBUG, MsgCouldNotBind p e)]
    | None => []
    end.

(** The invariant of the worlds a proxy can be in: handlers are well formed
    and connect first; every serving server is held by the proxy; a proxy
    that is not running has no serving server; every callback passes the
    port its server is bound to. *)
Record world_ok (ip : string) (w : World) : Prop := mkOk {
  ok_ip : printer_ip (proxy w) = ip;
  ok_port : port (proxy w) = FTP_PORT;
  ok_tasks : ∀ tid h, tasks w !! tid = Some h →
               handler_ok h ∧ connects_first ip h;
  ok_held : ∀ sid srv, servers w !! sid = Some srv → is_serving srv = true →
              _control_server (proxy w) = Some sid ∨
              sid ∈ _data_servers (proxy w);
  ok_idle : _running (proxy w) = false →
              ∀ sid srv, servers w !! sid = Some srv → is_serving srv = false;
  ok_cb : ∀ sid srv, servers w !! sid = Some srv →
            bound_port srv =
              match client_connected_cb srv with
              | ControlCallback => port (proxy w)
              | DataCallback p => p
              end
}.

(** What [stop] makes of the connection tasks: each registered task is
    cancelled and gathered. *)
Definition gathered_tasks (w : World) : list handler :=
  foldl (λ ts tid,
           alter (λ h, settle (printer_ip (proxy w))
                         (handler_step (printer_ip (proxy w)) Cancel h))
             tid ts)
    (tasks w) (elements (_active_connections (proxy w))).

(** What [stop] makes of the servers: the control server, when there is
    one, and the data servers are closed. *)
Definition closed_servers (w : World) : list Server :=
  foldl (λ ss sid, alter close_server sid ss)
    match _control_server (proxy w) with
    | Some c => alter close_server c (servers w)
    | None => servers w
    end
    (_data_servers (proxy w)).

(** The effects of [stop], in order: the registered tasks are cancelled and
    gathered, the control server is closed and awaited, the data servers
    are closed and then awaited. *)
Definition stop_effects (w : World) : list effect :=
  let active := elements (_active_connections (proxy w)) in
  let data := _data_servers (proxy w) in
  [Log (INFO, MsgStopping)] ++ (TaskCancel <$> active) ++
  (if bool_decide (active = []) then [] else [Gather active]) ++
  match _control_server (proxy w) with
  | Some c => [ServerClose c; ServerWaitClosed c]
  | None => []
  end ++
  (ServerClose <$> data) ++ (ServerWaitClosed <$> data) ++
  [Log (INFO, MsgStopped)].




End Props.
Export Props.

(** ** The command line front end ([pandaproxy/cli.py]) *)

Module Cli.

(** [check_dependencies(camera_type)].  [which tool] says whether
    [shutil.which(tool)] finds the binary. *)
Definition check_dependencies (which : string → bool) (camera_type : string)
    : bool * list string :=
  let missing : list string := [] in
  let missing :=
    if decide (camera_type = "rtsp"%string) then
      let missing :=
        if negb (which "ffmpeg"%string) then missing ++ ["ffmpeg"%string]
        else missing in
      if negb (which "mediamtx"%string) then missing ++ ["mediamtx"%string]
      else missing
    else missing in
  let missing :=
    if bool_decide (camera_type = "chamber"%string)
       && negb (which "openssl"%string)
    then missing ++ ["openssl"%string]
    else missing in
  ((length missing =? 0)%nat, missing).

(** The two camera proxies, [ChamberImageProxy] and [RTSPProxy]; their
    classes are not among the sources, so their [start] and [stop] are
    effects whose outcome the environment gives. *)
Inductive kind : Type := Chamber | Rtsp.

#[global] Instance kind_eq_dec : EqDecision kind.
Proof. solve_decision. Defined.

Inductive signal : Type := SIGINT | SIGTERM.

(** What [typer.echo] prints. *)
Inductive echo_msg : Type :=
  | EchoRule (leading_newline : bool)
  | EchoRunning
  | EchoPrinter (printer_ip : string)
  | EchoCameraType (k : kind)
  | EchoProxyAddress (k : kind) (bind : string)
  | EchoPressCtrlC
  | EchoConnecting (printer_ip : string)
  | EchoDetectionError (e : exn)
  | EchoDetected (camera_type : string)
  | EchoMissingDependencies
  | EchoHint (dep : string) (line : nat)
  | EchoStarting.

Inductive cli_log : Type :=
  | ShuttingDown
  | ShutdownComplete.

(** What the front end does to the outside world, in order. *)
Inductive cli_effect : Type :=
  | SetLevelDebug
  | AddSignalHandler (s : signal)
  | Construct (k : kind) (printer_ip access_code bind_address : string)
  | ProxyStart (k : kind)
  | ProxyStop (k : kind)
  | WaitStopEvent
  | Echo (m : echo_msg) (err : bool)
  | LogInfo (m : cli_log).

(** What the environment does to [run_proxy]: whether installing a signal
    handler, starting a proxy, waiting for the stop event or stopping a
    proxy raises, and whether the process runs in Docker
    ([os.path.exists("/.dockerenv") or os.environ.get("RUNNING_IN_DOCKER")]). *)
Record run_env : Type := mkRunEnv {
  handler_raises : signal → option exn;
  start_raises : kind → option exn;
  wait_raises : option exn;
  stop_raises : kind → option exn;
  in_docker : bool
}.

(** The local variables [chamber_proxy] and [rtsp_proxy] of [run_proxy]:
    whether each holds a proxy object (an object is true in [if]). *)
Record locals : Type := mkLocals {
  chamber_proxy : bool;
  rtsp_proxy : bool
}.

(** A block of [run_proxy] that has run: how it ended, the locals, and its
    effects. *)
Record block : Type := mkBlock {
  b_outcome : result unit;
  b_locals : locals;
  b_trace : list cli_effect
}.

(** The banner printed once a proxy has started. *)
Definition banner (k : kind) (printer_ip bind : string) (in_docker : bool)
    : list cli_effect :=
  [Echo (EchoRule true) false; Echo EchoRunning false;
   Echo (EchoRule false) false; Echo (EchoPrinter printer_ip) false;
   Echo (EchoCameraType k) false; Echo (EchoProxyAddress k bind) false;
   Echo (EchoRule false) false] ++
  match k with
  | Chamber => [Echo EchoPressCtrlC false]
  | Rtsp => if in_docker then [] else [Echo EchoPressCtrlC false]
  end.

(** [await stop_event.wait()], the last statement of the [try] body.  The
    event is set by [signal_handler], which the event loop calls when a
    signal arrives. *)
Definition wait_for_signal (env : run_env) (l : locals)
    (tr : list cli_effect) : block :=
  {| b_outcome := match wait_raises env with
                  | Some e => Raised e
                  | None => Returned tt
                  end;
     b_locals := l; b_trace := tr ++ [WaitStopEvent] |}.

(** Constructing and starting the proxy of kind [k]: the local variable is
    assigned before [start] is awaited (the constructor, whose class is not
    among the sources, is taken to return). *)
Definition start_proxy (env : run_env) (k : kind)
    (printer_ip access_code bind : string) : block :=
  let l := match k with
           | Chamber => {| chamber_proxy := true; rtsp_proxy := false |}
           | Rtsp => {| chamber_proxy := false; rtsp_proxy := true |}
           end in
  let tr := [Construct k printer_ip access_code bind; ProxyStart k] in
  match start_raises env k with
  | Some e => {| b_outcome := Raised e; b_locals := l; b_trace := tr |}
  | None =>
      wait_for_signal env l (tr ++ banner k printer_ip bind (in_docker env))
  end.

(** The [try] body of [run_proxy]. *)
Definition try_body (env : run_env) (printer_ip access_code bind : string)
    (camera_type : string) : block :=
  if decide (camera_type = "chamber"%string) then
    start_proxy env Chamber printer_ip access_code bind
  else if decide (camera_type = "rtsp"%string) then
    start_proxy env Rtsp printer_ip access_code bind
  else
    wait_for_signal env {| chamber_proxy := false; rtsp_proxy := false |} [].

(** The [finally] block of [run_proxy]:
<<
    logger.info("Shutting down...")
    if chamber_proxy: await chamber_proxy.stop()
    if rtsp_proxy:    await rtsp_proxy.stop()
    logger.info("Shutdown complete")
>> *)
Definition finally_block (env : run_env) (l : locals)
    : result unit * list cli_effect :=
  let tr := [LogInfo ShuttingDown] in
  let stop_rtsp (tr : list cli_effect) :=
    if rtsp_proxy l then
      match stop_raises env Rtsp with
      | Some e => (Raised e, tr ++ [ProxyStop Rtsp])
      | None => (Returned tt, tr ++ [ProxyStop Rtsp; LogInfo ShutdownComplete])
      end
    else (Returned tt, tr ++ [LogInfo ShutdownComplete]) in
  if chamber_proxy l then
    match stop_raises env Chamber with
    | Some e => (Raised e, tr ++ [ProxyStop Chamber])
    | None => stop_rtsp (tr ++ [ProxyStop Chamber])
    end
  else stop_rtsp tr.

(** The loop that installs the handlers, before the [try]. *)
Fixpoint add_signal_handlers (env : run_env) (sigs : list signal)
    (tr : list cli_effect) : result unit * list cli_effect :=
  match sigs with
  | [] => (Returned tt, tr)
  | sig :: rest =>
      match handler_raises env sig with
      | Some e => (Raised e, tr ++ [AddSignalHandler sig])
      | None => add_signal_handlers env rest (tr ++ [AddSignalHandler sig])
      end
  end.

(** [run_proxy(printer_ip, access_code, bind, camera_type)]: an exception of
    the [finally] block replaces the one of the [try] body. *)
Definition run_proxy (env : run_env) (printer_ip access_code bind : string)
    (camera_type : string) : result unit * list cli_effect :=
  match add_signal_handlers env [SIGINT; SIGTERM] [] with
  | (Raised e, tr) => (Raised e, tr)
  | (Returned _, tr) =>
      let b := try_body env printer_ip access_code bind camera_type in
      let '(r, tr') := finally_block env (b_locals b) in
      (match r with
       | Raised e => Raised e
       | Returned _ => b_outcome b
       end,
       tr ++ b_trace b ++ tr')
  end.

(** How [main] ends: it returns, leaves through [typer.Exit(code)], or
    through another exception. *)
Inductive main_outcome : Type :=
  | Completed
  | Exit (code : Z)
  | Uncaught (e : exn).

(** What the environment does to [main]: the outcome of
    [detect_camera_type] (not among the sources), [shutil.which], and the
    environment of [run_proxy]. *)
Record main_env : Type := mkMainEnv {
  detect : result string;
  which : string → bool;
  proxy_env : run_env
}.

(** The install hints [main] prints for one missing dependency. *)
Definition hints (dep : string) : list cli_effect :=
  if decide (dep = "ffmpeg"%string) then
    [Echo (EchoHint dep 0) true; Echo (EchoHint dep 1) true;
     Echo (EchoHint dep 2) true]
  else if decide (dep = "mediamtx"%string) then
    [Echo (EchoHint dep 0) true]
  else if decide (dep = "openssl"%string) then
    [Echo (EchoHint dep 0) true; Echo (EchoHint dep 1) true;
     Echo (EchoHint dep 2) true]
  else [].

(** [main(printer_ip, access_code, bind, verbose)] *)
Definition main (env : main_env) (printer_ip access_code bind : string)
    (verbose : bool) : main_outcome * list cli_effect :=
  let tr := (if verbose then [SetLevelDebug] else []) ++
            [Echo (EchoConnecting printer_ip) false] in
  match detect env with
  | Raised e =>
      if decide (e = RuntimeError)
      then (Exit 1, tr ++ [Echo (EchoDetectionError e) true])
      else (Uncaught e, tr)
  | Returned camera_type =>
      let tr := tr ++ [Echo (EchoDetected camera_type) false] in
      let '(dependencies_satisfied, dependencies_missing) :=
        check_dependencies (which env) camera_type in
      if negb dependencies_satisfied then
        (Exit 1,
         tr ++ [Echo EchoMissingDependencies true] ++
         (dependencies_missing ≫= hints))
      else
        let tr := tr ++ [Echo EchoStarting false] in
        let '(r, tr') :=
          run_proxy (proxy_env env) printer_ip access_code bind camera_type in
        (match r with
         | Returned _ => Completed
         | Raised e => Uncaught e
         end, tr ++ tr')
  end.

End Cli.
Export Cli.

(** ** More sample inputs and properties *)

Module MoreProps.

(** No read of the source raises. *)
Definition delivers_cleanly (r : StreamReader) : Prop := ∀ e, Fail e ∉ r.

(** No drain of the writer raises. *)
Definition drains_cleanly (w : StreamWriter) : Prop := ∀ e, Some e ∉ drains w.

(** What holds of a direction task that runs undisturbed: nothing raised,
    nothing logged, not cancelled; once done it has returned on EOF. *)
Definition undisturbed (t : ftask) : Prop :=
  delivers_cleanly (src t) ∧ drains_cleanly (dst t) ∧
  must_cancel t = false ∧ flog t = [] ∧
  ∀ r, pc t = FDone r → r = Returned tt ∧ last (got t) = Some [].

(** A direction task logs only when it ends, and then once. *)
Definition logs_once (t : ftask) : Prop :=
  (done t = false → flog t = []) ∧
  (length (flog t) ≤ 1)%nat ∧
  (flog t ≠ [] → pc t = FDone (Returned tt)).

(** The pipe has stopped waiting and both direction tasks are finished or
    cancelled. *)
Definition winding_down (p : pipe) : Prop :=
  at_pc p ≠ PWait ∧
  cancelled_or_done (task1 p) ∧ cancelled_or_done (task2 p).



(** A port the proxy may listen on. *)
Definition proxy_port (p : Z) : Prop :=
  p = 990 ∨ 2000 ≤ p ≤ 2100.

(** The open listeners are on distinct ports, all of them proxy ports, and
    they are given by the servers the proxy holds. *)
Definition listeners_ok (w : World) : Prop :=
  NoDup (listening w) ∧ ∀ p, p ∈ listening w → proxy_port p.

(** Data port 2050 fails with something that is not an [OSError]. *)
Definition broken_2050 : Z → option exn :=
  λ p, if decide (p = 2050) then Some RuntimeError else None.

(** Every tool is installed; nothing raises; not in Docker. *)
Definition all_installed : string → bool := λ _, true.

Definition no_openssl : string → bool :=
  λ tool, negb (bool_decide (tool = "openssl"%string)).

Definition calm : run_env :=
  {| handler_raises := λ _, None; start_raises := λ _, None;
     wait_raises := None; stop_raises := λ _, None; in_docker := false |}.

(** The chamber proxy fails to start. *)
Definition start_fails : run_env :=
  {| handler_raises := λ _, None;
     start_raises := λ _, Some OSError;
     wait_raises := None; stop_raises := λ _, None; in_docker := false |}.

(** The proxy a camera type selects in [run_proxy]. *)
Definition kind_of (camera_type : string) : option kind :=
  if decide (camera_type = "chamber"%string) then Some Chamber
  else if decide (camera_type = "rtsp"%string) then Some Rtsp
  else None.

Definition is_lifecycle (e : cli_effect) : bool :=
  match e with
  | Construct _ _ _ _ | ProxyStart _ | ProxyStop _ => true
  | _ => false
  end.

(** What some effects do to the camera proxies, in order. *)
Definition proxy_effects (tr : list cli_effect) : list cli_effect :=
  filter (λ e, is_lifecycle e = true) tr.

Definition is_echo (e : cli_effect) : bool :=
  match e with
  | Echo _ _ => true
  | _ => false
  end.

(** What some effects print, in order. *)
Definition echoes (tr : list cli_effect) : list cli_effect :=
  filter (λ e, is_echo e = true) tr.

(** Both signal handlers can be installed. *)
Definition handlers_install (env : run_env) : Prop :=
  handler_raises env SIGINT = None ∧ handler_raises env SIGTERM = None.

(** The tools a proxy kind needs on the path. *)
Definition tools (k : kind) : list string :=
  match k with
  | Chamber => ["openssl"%string]
  | Rtsp => ["ffmpeg"%string; "mediamtx"%string]
  end.

End MoreProps.
Export MoreProps.

(** ** Properties of a [stop] during which other things happen *)

Module StopProps.

(** [Q] holds of every connection task. *)
Definition each (Q : nat → handler → Prop) (w : World) : Prop :=
  ∀ tid h, tasks w !! tid = Some h → Q tid h.

(** The proxy forwards to [ip], at least [n] connection tasks were
    created, and [Q] holds of every connection task. *)
Definition forwards_to (ip : string) (n : nat) (Q : nat → handler → Prop)
    (w : World) : Prop :=
  printer_ip (proxy w) = ip ∧ (n ≤ length (tasks w))%nat ∧ each Q w.

(** A handler is well formed and connects first. *)
Definition sound (ip : string) (h : handler) : Prop :=
  handler_ok h ∧ connects_first ip h.

(** Every connection task that has not finished is registered in
    [_active_connections]. *)
Definition all_registered (w : World) : Prop :=
  ∀ tid h, tasks w !! tid = Some h → hdone h = false →
           tid ∈ _active_connections (proxy w).

(** Two worlds differ at most in the connection tasks and in
    [_active_connections]. *)
Definition same_shell (w w' : World) : Prop :=
  ∃ A T, w' = set_active_connections A (set_tasks T w).





(** A proxy is started and accepts a control connection; [stop] is called,
    and while it is suspended in [gather] a second client connects to the
    control listener, which is still open. *)
Definition late_client : list op :=
  [Start all_free;
   Accept 0 [] [];
   StopDuring [Connects 0 [Arrive hello] []] [] []].

(** The upstream connect of the second connection completes after [stop]
    has returned, and its client-to-printer task is resumed twice. *)
Definition late_client_served : list op :=
  late_client ++
  [Resumed 1 (Connected [] {| sent := []; drains := []; closed := false |});
   Resumed 1 (Run (Resume Task1));
   Resumed 1 (Run (Resume Task1))].

End StopProps.
Export StopProps.

(** * Facts about the streams and [forward] *)

Section ForwardFacts.

Lemma read_nil n r r' :
  0 < n → read n r = (Returned [], r') → deliverable r = [].
Proof.
  intros Hn. destruct r as [|[seg|e] rest]; simpl; [done| |done].
  destruct (Z.leb_spec (Z.of_nat (length seg)) n) as [Hle|Hgt].
  - intros [= -> _]. done.
  - intros [= Htake _]. destruct seg as [|b seg]; [done|].
    destruct (Z.to_nat n) eqn:E; [lia|]. discriminate.
Qed.

Lemma read_cons n r r' b data :
  0 < n → read n r = (Returned (b :: data), r') →
  deliverable r = (b :: data) ++ deliverable r' ∧
  Z.of_nat (length (b :: data)) ≤ n ∧
  (reads_left r' < reads_left r)%nat.
Proof.
  intros Hn. destruct r as [|[seg|e] rest]; simpl; [done| |done].
  destruct (Z.leb_spec (Z.of_nat (length seg)) n) as [Hle|Hgt].
  - intros [= -> <-]. simpl in *. split_and!; [done|lia|lia].
  - intros [= Htake <-].
    assert (Hlen : (Z.to_nat n < length seg)%nat) by lia.
    destruct seg as [|b0 seg]; [simpl in Hlen; lia|].
    pose proof (take_drop (Z.to_nat n) (b0 :: seg)) as Htd.
    pose proof (length_drop (b0 :: seg) (Z.to_nat n)) as Hld.
    pose proof (length_take (b0 :: seg) (Z.to_nat n)) as Hlt.
    rewrite Htake in Htd, Hlt.
    destruct (drop (Z.to_nat n) (b0 :: seg)) as [|b1 tl] eqn:Hdrop.
    { simpl in Hld, Hlen. lia. }
    split_and!.
    + change (deliverable (Arrive (b1 :: tl) :: rest))
        with ((b1 :: tl) ++ deliverable rest).
      rewrite <- Htd. by rewrite <- (assoc_L (++)).
    + simpl length in *. lia.
    + simpl in *. lia.
Qed.

Lemma read_raise_left n r r' e :
  read n r = (Raised e, r') → (reads_left r' < reads_left r)%nat.
Proof.
  destruct r as [|[seg|e'] rest]; simpl; [done| |].
  - by destruct (_ <=? _).
  - intros [= _ <-]. lia.
Qed.

Lemma on_raise_done e s d t : done (on_raise e s d t) = true.
Proof. unfold on_raise. repeat case_match; done. Qed.

Lemma on_raise_got e s d t : got (on_raise e s d t) = got t.
Proof. unfold on_raise. repeat case_match; done. Qed.

Lemma on_raise_dst e s d t : dst (on_raise e s d t) = d.
Proof. unfold on_raise. repeat case_match; done. Qed.

Lemma on_raise_must_cancel e s d t :
  must_cancel (on_raise e s d t) = must_cancel t.
Proof. unfold on_raise. repeat case_match; done. Qed.

Lemma on_raise_cancelled s d t :
  pc (on_raise CancelledError s d t) = FDone (Raised CancelledError).
Proof. done. Qed.

Lemma drain_sent w r w' : drain w = (r, w') → sent w' = sent w.
Proof.
  unfold drain. destruct (drains w) as [|[e|] rest]; by intros [= _ <-].
Qed.

Lemma forwarding_create direction r w :
  forwarding (deliverable r) (sent w) (create_task direction r w).
Proof.
  unfold forwarding. simpl. rewrite filter_nil, (right_id_L [] (++)).
  split_and!; done.
Qed.

Lemma forwarding_on_raise D base e s d t :
  pc t ≠ FDone (Returned tt) → (∀ r, pc t ≠ FDone r) →
  sent d = sent (dst t) →
  forwarding D base t → forwarding D base (on_raise e s d t).
Proof.
  intros _ Hrun Hd (Hsent & Hfit & Hpc).
  assert (Hpre : concat (got t) `prefix_of` D ∧ last (got t) ≠ Some []).
  { destruct (pc t) as [| |r]; [| |by destruct (Hrun r)];
      destruct Hpc as [<- ?]; (split; [by eexists|done]). }
  destruct Hpre as [Hpre Hlast].
  pose proof (on_raise_done e s d t) as Hdone.
  unfold forwarding. rewrite on_raise_got, on_raise_dst, Hd.
  unfold done in Hdone. destruct (pc (on_raise e s d t)); [done|done|].
  split_and!; done.
Qed.

Lemma forwarding_step D base t :
  forwarding D base t → forwarding D base (forward_step t).
Proof.
  intros Hinv. pose proof Hinv as (Hsent & Hfit & Hpc).
  unfold forward_step. destruct (pc t) as [| |r] eqn:Epc; [| |done].
  - destruct (must_cancel t).
    { apply forwarding_on_raise; [congruence|congruence|done|done]. }
    destruct (read 65536 (src t)) as [[[|b data]|e] src'] eqn:Eread.
    + apply read_nil in Eread; [|lia]. destruct Hpc as [HD Hlast].
      rewrite Eread, (right_id_L [] (++)) in HD.
      unfold forwarding; simpl.
      rewrite filter_app, filter_cons_False, filter_nil by (simpl; lia).
      rewrite (right_id_L [] (++)), concat_app. simpl.
      rewrite (right_id_L [] (++)).
      split_and!; [done| |by rewrite HD|done].
      apply Forall_app; split; [done|].
      apply Forall_singleton. unfold fits_buffer. simpl. lia.
    + apply read_cons in Eread as (Hdel & Hlen & _); [|lia].
      destruct Hpc as [HD Hlast].
      unfold forwarding; simpl.
      rewrite filter_app, filter_cons_True, filter_nil by (simpl; lia).
      rewrite Hsent, (assoc_L (++)), concat_app. simpl concat.
      rewrite (right_id_L [] (++)).
      split_and!; [done| | |].
      * apply Forall_app; split; [done|]. by apply Forall_singleton.
      * rewrite <- HD, Hdel. by rewrite (assoc_L (++)).
      * by rewrite last_snoc.
    + apply forwarding_on_raise; [congruence|congruence|done|done].
  - destruct (must_cancel t).
    { apply forwarding_on_raise; [congruence|congruence|done|done]. }
    destruct (drain (dst t)) as [[[]|e] dst'] eqn:Edrain.
    + apply drain_sent in Edrain. unfold forwarding; simpl.
      rewrite Edrain. done.
    + apply drain_sent in Edrain.
      apply forwarding_on_raise; [congruence|congruence|done|done].
Qed.

Lemma forwarding_cancel D base t :
  forwarding D base t → forwarding D base (cancel t).
Proof. unfold cancel. destruct (done t); [done|]. by intros (?&?&?). Qed.

Lemma forwarding_byte_exact r0 w0 t :
  forwarding (deliverable r0) (sent w0) t → byte_exact r0 w0 t.
Proof.
  intros (Hsent & Hfit & Hpc). unfold byte_exact.
  assert (Hcat : ∀ l : list bytes,
             concat (filter (λ c, length c ≠ 0%nat) l) = concat l).
  { induction l as [|c l IH]; [done|]. rewrite filter_cons.
    destruct (decide (length c ≠ 0%nat)) as [?|Hz].
    - cbn [concat]. f_equal. apply IH.
    - destruct c; [apply IH|simpl in Hz; lia]. }
  split_and!; [done| |done| |].
  - rewrite Hsent, concat_app. f_equal. apply Hcat.
  - destruct (pc t); [| |apply Hpc]; destruct Hpc as [<- _]; by eexists.
  - destruct (pc t); [| |apply Hpc]; by intros ?; destruct Hpc.
Qed.

Lemma forward_step_done t : done t = true → forward_step t = t.
Proof. unfold done, forward_step. by destruct (pc t). Qed.

Lemma forward_step_must_cancel t :
  must_cancel (forward_step t) = must_cancel t.
Proof.
  unfold forward_step. destruct (pc t); [| |done].
  - destruct (must_cancel t) eqn:E; [by rewrite on_raise_must_cancel|].
    destruct (read _ _) as [[[|??]|?] ?]; simpl; try done.
    by rewrite on_raise_must_cancel.
  - destruct (must_cancel t) eqn:E; [by rewrite on_raise_must_cancel|].
    destruct (drain _) as [[[]|?] ?]; simpl; try done.
    by rewrite on_raise_must_cancel.
Qed.

(** A task whose cancellation was requested ends at its next resumption. *)
Lemma forward_step_cancelled t :
  must_cancel t = true → done (forward_step t) = true.
Proof.
  intros Hc. unfold forward_step.
  destruct (pc t) eqn:E; rewrite ?Hc, ?on_raise_done; [done|done|].
  unfold done. by rewrite E.
Qed.

Lemma forward_step_stays_done t :
  done t = true → done (forward_step t) = true.
Proof. intros H. by rewrite forward_step_done. Qed.

Lemma forward_step_enough t :
  done t = false → (enough (forward_step t) < enough t)%nat.
Proof.
  unfold done, forward_step, enough at 2.
  destruct (pc t) eqn:Epc; [| |done]; intros _.
  - destruct (must_cancel t).
    { pose proof (on_raise_done CancelledError (src t) (dst t) t) as Hd.
      unfold done in Hd. unfold enough.
      destruct (pc (on_raise _ _ _ _)); [done|done|lia]. }
    destruct (read 65536 (src t)) as [[[|b data]|e] src'] eqn:Eread.
    + unfold enough; simpl. lia.
    + apply read_cons in Eread as (_ & _ & Hlt); [|lia].
      unfold enough; simpl. lia.
    + pose proof (on_raise_done e src' (dst t) t) as Hd.
      unfold done in Hd. unfold enough.
      destruct (pc (on_raise _ _ _ _)); [done|done|lia].
  - destruct (must_cancel t).
    { pose proof (on_raise_done CancelledError (src t) (dst t) t) as Hd.
      unfold done in Hd. unfold enough.
      destruct (pc (on_raise _ _ _ _)); [done|done|lia]. }
    destruct (drain (dst t)) as [[[]|e] dst'] eqn:Edrain.
    + unfold enough; simpl. lia.
    + pose proof (on_raise_done e (src t) dst' t) as Hd.
      unfold done in Hd. unfold enough.
      destruct (pc (on_raise _ _ _ _)); [done|done|lia].
Qed.

(** [forward] finishes: the read loop cannot go on forever on a source that
    delivers finitely much. *)
Lemma forward_terminates fuel t :
  (enough t ≤ fuel)%nat → done (forward fuel t) = true.
Proof.
  revert t. induction fuel as [|fuel IH]; intros t Hle; simpl.
  - unfold enough, done in *. destruct (pc t); [lia|lia|done].
  - destruct (done t) eqn:Hd.
    + apply IH. rewrite forward_step_done by done.
      unfold enough, done in *. destruct (pc t); [done|done|lia].
    + apply IH. pose proof (forward_step_enough t Hd). lia.
Qed.

Lemma forwarding_forward D base fuel t :
  forwarding D base t → forwarding D base (forward fuel t).
Proof.
  revert t. induction fuel as [|fuel IH]; intros t Ht; [done|].
  simpl. by apply IH, forwarding_step.
Qed.

End ForwardFacts.

(** * Facts about the byte pipe *)

Section PipeFacts.

Lemma not_Exception e : isinstance_Exception e = false → e = CancelledError.
Proof. by destruct e. Qed.

Lemma on_raise_ends_well e s d t : ends_well (on_raise e s d t).
Proof.
  unfold ends_well, on_raise. intros e'.
  destruct (decide (e = CancelledError)) as [->|Hne]; simpl; [congruence|].
  destruct (isinstance_Exception e) eqn:E; simpl; [done|].
  apply not_Exception in E. done.
Qed.

Lemma forward_step_ends_well t : ends_well t → ends_well (forward_step t).
Proof.
  intros Ht. unfold forward_step. destruct (pc t) eqn:Epc; [| |done].
  - destruct (must_cancel t); [apply on_raise_ends_well|].
    destruct (read _ _) as [[[|??]|?] ?]; try (intros ?; simpl; congruence).
    apply on_raise_ends_well.
  - destruct (must_cancel t); [apply on_raise_ends_well|].
    destruct (drain _) as [[[]|?] ?]; try (intros ?; simpl; congruence).
    apply on_raise_ends_well.
Qed.

Lemma cancel_ends_well t : ends_well t → ends_well (cancel t).
Proof. unfold cancel. by destruct (done t). Qed.

Lemma create_task_ends_well direction r w :
  ends_well (create_task direction r w).
Proof. intros e. simpl. congruence. Qed.

Lemma cancel_cancelled_or_done t : cancelled_or_done (cancel t).
Proof.
  unfold cancelled_or_done, cancel. destruct (done t) eqn:E; [by left|].
  by right.
Qed.

Lemma cancel_done t : done (cancel t) = done t.
Proof. unfold cancel. by destruct (done t) eqn:E. Qed.

Lemma forward_step_cancelled_or_done t :
  cancelled_or_done t → done (forward_step t) = true.
Proof.
  intros [?|?]; [by apply forward_step_stays_done|
                 by apply forward_step_cancelled].
Qed.

Lemma get_set d t p : get d (set d t p) = t.
Proof. by destruct d. Qed.

Lemma get_set_ne d d' t p : d ≠ d' → get d' (set d t p) = get d' p.
Proof. by destruct d, d'. Qed.

Lemma at_pc_set d t p : at_pc (set d t p) = at_pc p.
Proof. by destruct d. Qed.

Lemma pipe_ok_init cr cw ur uw : pipe_ok (_forward_bidirectional cr cw ur uw).
Proof.
  unfold pipe_ok. simpl.
  split_and!; [apply create_task_ends_well|apply create_task_ends_well| |];
    done.
Qed.

Lemma pipe_ok_resume d p :
  pipe_ok p → pipe_ok (set d (forward_step (get d p)) p).
Proof.
  intros (He1 & He2 & Hat). unfold pipe_ok. rewrite at_pc_set.
  split_and!.
  - destruct d; simpl; [by apply forward_step_ends_well|done].
  - destruct d; simpl; [done|by apply forward_step_ends_well].
  - destruct (at_pc p) as [|l| |e].
    + destruct d; simpl in *; rewrite ?forward_step_must_cancel; done.
    + destruct Hat as [(d0 & rest & -> & Hd0) Hrest]. split.
      * exists d0, rest. split; [done|].
        destruct (decide (d = d0)) as [->|Hne].
        -- rewrite get_set. left. by apply forward_step_cancelled_or_done.
        -- by rewrite get_set_ne.
      * intros d1 Hd1. destruct (decide (d = d1)) as [->|Hne].
        -- rewrite get_set. apply forward_step_stays_done. by apply Hrest.
        -- rewrite get_set_ne by done. by apply Hrest.
    + destruct d; simpl in *; split; try apply forward_step_stays_done;
        apply Hat.
    + destruct Hat as (-> & H1 & H2).
      destruct d; simpl in *; split_and!; try done;
        left; by apply forward_step_cancelled_or_done.
Qed.

Lemma pipe_ok_cancel_next l p :
  ends_well (task1 p) → ends_well (task2 p) →
  (∀ d, d ∉ l → done (get d p) = true) →
  pipe_ok (cancel_next l p).
Proof.
  intros He1 He2 Hrest. destruct l as [|d rest]; unfold pipe_ok; simpl.
  - split_and!; [done|done| |].
    + apply (Hrest Task1). apply not_elem_of_nil.
    + apply (Hrest Task2). apply not_elem_of_nil.
  - split_and!.
    + destruct d; simpl; [by apply cancel_ends_well|done].
    + destruct d; simpl; [done|by apply cancel_ends_well].
    + exists d, rest. split; [done|].
      destruct d; simpl; apply cancel_cancelled_or_done.
    + intros d1 Hd1.
      assert (Hne : d1 ≠ d) by (intros ->; apply Hd1; by left).
      assert (Hnot : d1 ∉ d :: rest) by done.
      specialize (Hrest d1 Hnot).
      destruct d, d1; simpl in *; done.
Qed.

Lemma pipe_ok_step ev p : pipe_ok p → pipe_ok (pipe_step ev p).
Proof.
  intros Hok. pose proof Hok as (He1 & He2 & Hat).
  unfold pipe_step. destruct (at_pc p) as [|[|d rest]| |e] eqn:Eat;
    [| | |done|done].
  - (* waiting *)
    destruct ev as [d| |].
    + by apply pipe_ok_resume.
    + destruct (done (task1 p) || done (task2 p)) eqn:Eany; [|done].
      apply pipe_ok_cancel_next; [done|done|].
      intros d Hd. unfold pending_tasks in Hd.
      destruct (done (get d p)) eqn:Ed; [done|].
      exfalso. apply Hd. apply list_elem_of_filter. split; [done|].
      destruct d; [by left|right; by left].
    + unfold pipe_ok. simpl.
      split_and!; try apply cancel_ends_well; try done;
        apply cancel_cancelled_or_done.
  - destruct Hat as [(? & ? & [=] & _) _].
  - (* awaiting the cancelled task [d] *)
    destruct Hat as [(d0 & rest0 & [= <- <-] & Hd) Hrest].
    destruct ev as [d'| |].
    + apply pipe_ok_resume. unfold pipe_ok. rewrite Eat. eauto 10.
    + destruct (pc (get d p)) as [| |[[]|e]] eqn:Epc; [done|done| |].
      * apply pipe_ok_cancel_next; [done|done|].
        intros d1 Hd1. destruct (decide (d1 = d)) as [->|Hne].
        -- unfold done. by rewrite Epc.
        -- apply Hrest. intros [?|?]%elem_of_cons; done.
      * assert (e = CancelledError) as ->.
        { destruct d; [by apply He1|by apply He2]. }
        rewrite decide_True by done.
        apply pipe_ok_cancel_next; [done|done|].
        intros d1 Hd1. destruct (decide (d1 = d)) as [->|Hne].
        -- unfold done. by rewrite Epc.
        -- apply Hrest. intros [?|?]%elem_of_cons; done.
    + unfold pipe_ok. rewrite at_pc_set, Eat. split_and!.
      * destruct d; simpl; [by apply cancel_ends_well|done].
      * destruct d; simpl; [done|by apply cancel_ends_well].
      * exists d, rest. split; [done|]. rewrite get_set.
        apply cancel_cancelled_or_done.
      * intros d1 Hd1. rewrite get_set_ne; [by apply Hrest|].
        intros ->. apply Hd1. by left.
Qed.

Lemma pipe_ok_run evs p : pipe_ok p → pipe_ok (run_pipe evs p).
Proof.
  revert p. induction evs as [|ev evs IH]; intros p Hp; [done|].
  simpl. by apply IH, pipe_ok_step.
Qed.

Lemma pending_cases p :
  pending_tasks p =
    (if done (task1 p) then [] else [Task1]) ++
    (if done (task2 p) then [] else [Task2]).
Proof.
  unfold pending_tasks. rewrite !filter_cons, filter_nil. simpl.
  destruct (done (task1 p)), (done (task2 p)); done.
Qed.

Lemma one_pending_step ev p : one_pending p → one_pending (pipe_step ev p).
Proof.
  intros Hone. unfold one_pending in *. unfold pipe_step.
  destruct (at_pc p) as [|[|d rest]| |e] eqn:Eat; [| | |by rewrite Eat..].
  - destruct ev as [d| |]; [by rewrite at_pc_set, Eat| |done].
    destruct (done (task1 p) || done (task2 p)) eqn:Eany; [|by rewrite Eat].
    rewrite pending_cases.
    destruct (done (task1 p)), (done (task2 p)); try done; simpl; lia.
  - done.
  - assert (rest = []) as -> by (destruct rest; [done|simpl in Hone; lia]).
    destruct ev as [d'| |]; [by rewrite at_pc_set, Eat| |
                             by rewrite at_pc_set, Eat].
    destruct (pc (get d p)) as [| |[[]|e]]; [by rewrite Eat..|done|].
    destruct (decide _); done.
Qed.

Lemma one_pending_run evs p : one_pending p → one_pending (run_pipe evs p).
Proof.
  revert p. induction evs as [|ev evs IH]; intros p Hp; [done|].
  simpl. by apply IH, one_pending_step.
Qed.

Lemma pipe_forwarding_step cr cw ur uw ev p :
  pipe_forwarding cr cw ur uw p →
  pipe_forwarding cr cw ur uw (pipe_step ev p).
Proof.
  intros [H1 H2]. unfold pipe_step, pipe_forwarding.
  assert (Hset : ∀ d t,
    forwarding (deliverable cr) (sent uw) (task1 p) →
    forwarding (deliverable ur) (sent cw) (task2 p) →
    (forwarding (deliverable cr) (sent uw) (task1 p) →
     d = Task1 → forwarding (deliverable cr) (sent uw) t) →
    (forwarding (deliverable ur) (sent cw) (task2 p) →
     d = Task2 → forwarding (deliverable ur) (sent cw) t) →
    forwarding (deliverable cr) (sent uw) (task1 (set d t p)) ∧
    forwarding (deliverable ur) (sent cw) (task2 (set d t p))).
  { intros [] t ? ? Ht1 Ht2; simpl; split; auto. }
  assert (Hnext : ∀ l,
    forwarding (deliverable cr) (sent uw) (task1 (cancel_next l p)) ∧
    forwarding (deliverable ur) (sent cw) (task2 (cancel_next l p))).
  { intros [|d l]; [done|]. unfold cancel_next.
    destruct d; simpl; split; try done; by apply forwarding_cancel. }
  destruct (at_pc p) as [|[|d rest]| |e]; [| | |done|done].
  - destruct ev as [d| |].
    + apply Hset; [done|done| |]; intros ? ->; by apply forwarding_step.
    + destruct (_ || _); [apply Hnext|done].
    + simpl. split; by apply forwarding_cancel.
  - done.
  - destruct ev as [d'| |].
    + apply Hset; [done|done| |]; intros ? ->; by apply forwarding_step.
    + destruct (pc (get d p)) as [| |[|e]]; [done|done|apply Hnext|].
      destruct (decide _); [apply Hnext|done].
    + apply Hset; [done|done| |]; intros ? ->; by apply forwarding_cancel.
Qed.

(** Once the pipe awaits its pending tasks, resuming each of them and then
    the pipe makes it return. *)
Lemma pipe_await_returns l p :
  pipe_ok p → at_pc p = PAwait l →
  at_pc (run_pipe (l ≫= λ d, [Resume d; Wake]) p) = PReturned.
Proof.
  revert p. induction l as [|d rest IH]; intros p Hok Hat.
  { destruct Hok as (_ & _ & Hp). rewrite Hat in Hp.
    by destruct Hp as [(? & ? & [=] & _) _]. }
  cbn [mbind list_bind]. simpl.
  pose proof (pipe_ok_step (Resume d) p Hok) as Hok1.
  assert (Hat1 : at_pc (pipe_step (Resume d) p) = PAwait (d :: rest)).
  { unfold pipe_step. rewrite Hat. by rewrite at_pc_set. }
  assert (Hdone : done (get d (pipe_step (Resume d) p)) = true).
  { unfold pipe_step. rewrite Hat, get_set.
    apply forward_step_cancelled_or_done.
    destruct Hok as (_ & _ & Hp). rewrite Hat in Hp.
    by destruct Hp as [(? & ? & [= <- <-] & ?) _]. }
  set (p1 := pipe_step (Resume d) p) in *.
  pose proof (pipe_ok_step Wake p1 Hok1) as Hok2.
  assert (Hstep : pipe_step Wake p1 = cancel_next rest p1).
  { unfold pipe_step. rewrite Hat1. unfold done in Hdone.
    destruct (pc (get d p1)) as [| |[[]|e]] eqn:Epc; [done|done|done|].
    assert (e = CancelledError) as ->.
    { destruct Hok1 as (He1 & He2 & _). destruct d; [by apply He1|by apply He2]. }
    by rewrite decide_True. }
  rewrite Hstep in *. destruct rest as [|d2 rest2].
  - done.
  - apply IH; [done|]. done.
Qed.

End PipeFacts.

(** * The byte pipe: claims C1 and C7 *)

Section PipeClaims.

Lemma pipe_forwarding_run cr cw ur uw evs p :
  pipe_forwarding cr cw ur uw p →
  pipe_forwarding cr cw ur uw (run_pipe evs p).
Proof.
  revert p. induction evs as [|ev evs IH]; intros p Hp; [done|].
  simpl. by apply IH, pipe_forwarding_step.
Qed.

(** C1.  In every FTP passthrough session, and for each direction on its
    own, the chunks written to the destination are the non-empty chunks read
    from the source, in the same order, so the bytes written are the bytes
    read: nothing is inserted, reordered, changed or lost; every chunk is at
    most 65536 bytes long and what was read is an initial part of what the
    source delivers (all of it once the source reported EOF).  This holds
    for [forward] run on its own with any fuel, and for both direction tasks
    of [_forward_bidirectional] under every schedule. *)
Theorem forward_byte_exact :
  (∀ direction r w fuel,
     byte_exact r w (forward fuel (create_task direction r w))) ∧
  (∀ cr cw ur uw evs,
     let p := run_pipe evs (_forward_bidirectional cr cw ur uw) in
     byte_exact cr uw (task1 p) ∧ byte_exact ur cw (task2 p)).
Proof.
  split.
  - intros direction r w fuel.
    apply forwarding_byte_exact, forwarding_forward, forwarding_create.
  - intros cr cw ur uw evs p.
    assert (Hp : pipe_forwarding cr cw ur uw p).
    { apply pipe_forwarding_run. split; apply forwarding_create. }
    destruct Hp as [H1 H2]. split; by apply forwarding_byte_exact.
Qed.

(** C7.  The byte pipe runs both direction tasks concurrently: while it
    waits, neither task has been cancelled, resuming a task runs one more
    step of [forward], and the wait does not end as long as neither task is
    done.  Once a task is done (EOF or error), the pipe cancels the pending
    one and awaits it; it returns only with both tasks terminated, and it
    does return once the awaited task has been resumed.  If the pipe itself
    is cancelled while it waits, it cancels both tasks and re-raises
    [CancelledError]; a cancelled task terminates at its next resumption.
    A cancellation that reaches the pipe while it awaits the cancelled task
    is absorbed by [suppress]: both tasks are cancelled or done all the
    same. *)
Theorem byte_pipe_lifecycle cr cw ur uw evs :
  let p := run_pipe evs (_forward_bidirectional cr cw ur uw) in
  (at_pc p = PWait →
     (must_cancel (task1 p) = false ∧ must_cancel (task2 p) = false) ∧
     (∀ d, pipe_step (Resume d) p = set d (forward_step (get d p)) p) ∧
     (done (task1 p) = false → done (task2 p) = false →
        pipe_step Wake p = p) ∧
     (done (task1 p) || done (task2 p) = true →
        (pending_tasks p = [] ∧ at_pc (pipe_step Wake p) = PReturned) ∨
        (∃ d, pending_tasks p = [d] ∧
              at_pc (pipe_step Wake p) = PAwait [d] ∧
              must_cancel (get d (pipe_step Wake p)) = true)) ∧
     (at_pc (pipe_step CancelOuter p) = PRaised CancelledError ∧
      cancelled_or_done (task1 (pipe_step CancelOuter p)) ∧
      cancelled_or_done (task2 (pipe_step CancelOuter p)))) ∧
  (∀ l, at_pc p = PAwait l →
     (∃ d, l = [d] ∧ cancelled_or_done (get d p)) ∧
     (∀ d, d ∉ l → done (get d p) = true) ∧
     at_pc (run_pipe (l ≫= λ d, [Resume d; Wake]) p) = PReturned ∧
     (at_pc (pipe_step CancelOuter p) = PAwait l ∧
      cancelled_or_done (task1 (pipe_step CancelOuter p)) ∧
      cancelled_or_done (task2 (pipe_step CancelOuter p)))) ∧
  (at_pc p = PReturned → done (task1 p) = true ∧ done (task2 p) = true) ∧
  (∀ e, at_pc p = PRaised e →
     e = CancelledError ∧
     cancelled_or_done (task1 p) ∧ cancelled_or_done (task2 p)) ∧
  (∀ t, cancelled_or_done t → done (forward_step t) = true).
Proof.
  intros p.
  assert (Hok : pipe_ok p) by apply pipe_ok_run, pipe_ok_init.
  pose proof Hok as (He1 & He2 & Hat).
  split_and!.
  - intros Eat. rewrite Eat in Hat. split_and!.
    + apply Hat.
    + apply Hat.
    + intros d. unfold pipe_step. by rewrite Eat.
    + intros E1 E2. unfold pipe_step. by rewrite Eat, E1, E2.
    + intros Eany. unfold pipe_step. rewrite Eat, Eany.
      rewrite pending_cases.
      destruct (done (task1 p)) eqn:E1, (done (task2 p)) eqn:E2;
        [left|right|right|done]; simpl.
      * done.
      * exists Task2. split_and!; [done|done|].
        unfold cancel. by rewrite E2.
      * exists Task1. split_and!; [done|done|].
        unfold cancel. by rewrite E1.
    + unfold pipe_step. by rewrite Eat.
    + unfold pipe_step. rewrite Eat. apply cancel_cancelled_or_done.
    + unfold pipe_step. rewrite Eat. apply cancel_cancelled_or_done.
  - intros l Eat. rewrite Eat in Hat.
    destruct Hat as [(d & rest & -> & Hd) Hrest].
    assert (Hone : one_pending p).
    { apply one_pending_run. unfold one_pending. done. }
    unfold one_pending in Hone. rewrite Eat in Hone.
    assert (rest = []) as -> by (destruct rest; [done|simpl in Hone; lia]).
    assert (Hstep : pipe_step CancelOuter p = set d (cancel (get d p)) p).
    { unfold pipe_step. by rewrite Eat. }
    split_and!; [by exists d|done|by apply pipe_await_returns| | |].
    + by rewrite Hstep, at_pc_set.
    + rewrite Hstep. destruct d; simpl; [apply cancel_cancelled_or_done|].
      left. apply (Hrest Task1).
      intros [Heq|Hnil]%elem_of_cons; [done|by apply elem_of_nil in Hnil].
    + rewrite Hstep. destruct d; simpl; [|apply cancel_cancelled_or_done].
      left. apply (Hrest Task2).
      intros [Heq|Hnil]%elem_of_cons; [done|by apply elem_of_nil in Hnil].
  - intros Eat. by rewrite Eat in Hat.
  - intros e Eat. by rewrite Eat in Hat.
  - apply forward_step_cancelled_or_done.
Qed.

Lemma byte_pipe_lifecycle_witness :
  at_pc (run_pipe [Resume Task2; Wake]
           (_forward_bidirectional [Arrive hello]
              {| sent := []; drains := []; closed := false |} []
              {| sent := []; drains := []; closed := false |}))
    = PAwait [Task1] ∧
  at_pc (run_pipe ([Task1] ≫= λ d, [Resume d; Wake])
           (run_pipe [Resume Task2; Wake]
              (_forward_bidirectional [Arrive hello]
                 {| sent := []; drains := []; closed := false |} []
                 {| sent := []; drains := []; closed := false |})))
    = PReturned.
Proof.
  split; [reflexivity|].
  destruct (byte_pipe_lifecycle [Arrive hello]
              {| sent := []; drains := []; closed := false |} []
              {| sent := []; drains := []; closed := false |}
              [Resume Task2; Wake]) as (_ & Hawait & _).
  exact (proj1 (proj2 (proj2 (Hawait [Task1] eq_refl)))).
Defined.

End PipeClaims.

(** * Facts about the connection handler *)

Section HandlerFacts.

Context (ip : string).

Lemma handler_ok_init self_port cr cw p :
  handler_ok (_handle_connection ip self_port cr cw p).
Proof. done. Qed.

Lemma finally_ok r cw uw h :
  r = Returned tt ∨ r = Raised CancelledError →
  handler_ok (finally r cw uw h).
Proof.
  intros Hr. unfold handler_ok. simpl. split_and!; [done|done|].
  intros w. destruct uw as [w0|]; simpl; [|done]. by intros [= <-].
Qed.

Lemma on_exception_ok e cw uw h : handler_ok (on_exception ip e cw uw h).
Proof.
  unfold on_exception. repeat case_decide; try (apply finally_ok; by left).
  destruct (isinstance_Exception e) eqn:E; apply finally_ok; [by left|].
  right. f_equal. by apply not_Exception.
Qed.

Lemma after_pipe_ok p h :
  pipe_ok p → is_Some (upstream_writer h) → handler_ok (after_pipe ip p h).
Proof.
  intros Hp Hup. unfold after_pipe.
  destruct (at_pc p) as [|l| |e] eqn:Eat.
  - unfold handler_ok. simpl. split_and!; [done|done|by left].
  - unfold handler_ok. simpl. split_and!; [done|done|right; by exists l].
  - apply finally_ok. by left.
  - apply on_exception_ok.
Qed.

Lemma handler_ok_step ev h : handler_ok h → handler_ok (handler_step ip ev h).
Proof.
  intros Hok. unfold handler_step.
  destruct (h_pc h) as [|p|r] eqn:Epc; [| |done].
  - destruct ev as [ur uw|e|s|]; try apply on_exception_ok.
    + unfold handler_ok. cbn [h_pc upstream_writer].
      split_and!; [apply pipe_ok_init|by eexists|by left].
    + done.
  - unfold handler_ok in Hok. rewrite Epc in Hok.
    destruct Hok as (Hp & Hup & Hat).
    destruct ev as [ur uw|e|s|];
      try (apply after_pipe_ok; [by apply pipe_ok_step|done]);
      unfold handler_ok; rewrite Epc; auto.
Qed.


Lemma hdone_finally r cw uw h : hdone (finally r cw uw h) = true.
Proof. done. Qed.

Lemma hdone_on_exception e cw uw h : hdone (on_exception ip e cw uw h) = true.
Proof. unfold on_exception. repeat case_match; done. Qed.

Lemma handler_step_done ev h : hdone h = true → handler_step ip ev h = h.
Proof. unfold hdone, handler_step. by destruct (h_pc h). Qed.

(** A handler suspended in a pipe that awaits its cancelled tasks finishes
    when the event loop resumes them. *)
Lemma settle_awaiting l h p :
  h_pc h = HPiping p → at_pc p = PAwait l → pipe_ok p →
  hdone (foldl (λ h d, handler_step ip (Run Wake)
                         (handler_step ip (Run (Resume d)) h)) h l) = true.
Proof.
  revert h p. induction l as [|d rest IH]; intros h p Hh Hat Hok.
  { destruct Hok as (_ & _ & Hp). rewrite Hat in Hp.
    by destruct Hp as [(? & ? & [=] & _) _]. }
  cbn [foldl].
  pose proof (pipe_ok_step (Resume d) p Hok) as Hok1.
  assert (Hat1 : at_pc (pipe_step (Resume d) p) = PAwait (d :: rest)).
  { unfold pipe_step. rewrite Hat. by rewrite at_pc_set. }
  assert (Hdone : done (get d (pipe_step (Resume d) p)) = true).
  { unfold pipe_step. rewrite Hat, get_set.
    apply forward_step_cancelled_or_done.
    destruct Hok as (_ & _ & Hp). rewrite Hat in Hp.
    by destruct Hp as [(? & ? & [= <- <-] & ?) _]. }
  set (p1 := pipe_step (Resume d) p) in *.
  assert (Hh1 : ∃ h1, handler_step ip (Run (Resume d)) h = h1 ∧
                      h_pc h1 = HPiping p1).
  { eexists. split; [done|]. unfold handler_step. rewrite Hh.
    fold p1. unfold after_pipe. by rewrite Hat1. }
  destruct Hh1 as (h1 & -> & Hh1).
  assert (Hstep : pipe_step Wake p1 = cancel_next rest p1).
  { unfold pipe_step. rewrite Hat1. unfold done in Hdone.
    destruct (pc (get d p1)) as [| |[[]|e]] eqn:Epc; [done|done|done|].
    assert (e = CancelledError) as ->.
    { destruct Hok1 as (He1 & He2 & _).
      destruct d; [by apply He1|by apply He2]. }
    by rewrite decide_True. }
  pose proof (pipe_ok_step Wake p1 Hok1) as Hok2. rewrite Hstep in Hok2.
  assert (Hh2 : handler_step ip (Run Wake) h1 =
                after_pipe ip (cancel_next rest p1) h1).
  { unfold handler_step. by rewrite Hh1, Hstep. }
  rewrite Hh2. destruct rest as [|d2 rest2].
  - unfold after_pipe. simpl. done.
  - apply (IH _ (cancel_next (d2 :: rest2) p1)); [|done|apply Hok2].
    unfold after_pipe. simpl. reflexivity.
Qed.

Lemma foldl_handler_done (l : list dir) h :
  hdone h = true →
  foldl (λ h d, handler_step ip (Run Wake)
                  (handler_step ip (Run (Resume d)) h)) h l = h.
Proof.
  intros Hd. induction l as [|d l IH]; [done|].
  cbn [foldl].
  rewrite (handler_step_done (Run (Resume d)) h Hd).
  by rewrite (handler_step_done (Run Wake) h Hd).
Qed.

Lemma settle_done h : hdone h = true → settle ip h = h.
Proof.
  intros Hd. unfold settle, awaited. unfold hdone in Hd.
  by destruct (h_pc h).
Qed.

(** A cancelled connection task that is gathered finishes. *)
Lemma settle_cancelled h :
  handler_ok h → hdone (settle ip (handler_step ip Cancel h)) = true.
Proof.
  intros Hok.
  destruct (hdone (handler_step ip Cancel h)) eqn:Ed.
  { by rewrite settle_done. }
  unfold handler_ok in Hok.
  destruct (h_pc h) as [|p|r] eqn:Epc.
  - unfold handler_step in Ed. rewrite Epc in Ed.
    by rewrite hdone_on_exception in Ed.
  - destruct Hok as (Hp & Hup & Hat).
    pose proof (pipe_ok_step CancelOuter p Hp) as Hp'.
    assert (Hstep : handler_step ip Cancel h =
                    after_pipe ip (pipe_step CancelOuter p) h).
    { unfold handler_step. by rewrite Epc. }
    rewrite Hstep in Ed |- *.
    destruct Hat as [Hw|[l Hl]].
    + unfold after_pipe, pipe_step in Ed. rewrite Hw in Ed. simpl in Ed.
      by rewrite hdone_on_exception in Ed.
    + pose proof Hp as (_ & _ & Hpl). rewrite Hl in Hpl.
      destruct Hpl as [(d & rest & -> & _) _].
      assert (Hat' : at_pc (pipe_step CancelOuter p) = PAwait (d :: rest)).
      { unfold pipe_step. rewrite Hl. by rewrite at_pc_set. }
      assert (Hh' : h_pc (after_pipe ip (pipe_step CancelOuter p) h) =
                    HPiping (pipe_step CancelOuter p)).
      { unfold after_pipe. by rewrite Hat'. }
      unfold settle, awaited. rewrite Hh', Hat'.
      by eapply settle_awaiting.
  - rewrite handler_step_done in Ed by (unfold hdone; by rewrite Epc).
    unfold hdone in Ed. by rewrite Epc in Ed.
Qed.

Lemma settle_ok h : handler_ok h → handler_ok (settle ip h).
Proof.
  unfold settle. generalize (awaited h) as l. intros l. revert h.
  induction l as [|d l IH]; intros h Hh; [done|].
  cbn [foldl]. by apply IH, handler_ok_step, handler_ok_step.
Qed.

Lemma h_pc_on_exception e cw uw h :
  h_pc (on_exception ip e cw uw h) ≠ HConnecting.
Proof.
  pose proof (hdone_on_exception e cw uw h) as Hd. unfold hdone in Hd.
  intros Hc. by rewrite Hc in Hd.
Qed.

Lemma h_pc_after_pipe p h : h_pc (after_pipe ip p h) ≠ HConnecting.
Proof.
  unfold after_pipe. destruct (at_pc p); try done.
  apply h_pc_on_exception.
Qed.

Lemma handler_step_connecting ev h :
  h_pc (handler_step ip ev h) = HConnecting → h_pc h = HConnecting.
Proof.
  unfold handler_step. destruct (h_pc h) as [|p|r] eqn:Epc; [done| |].
  - destruct ev; try (by intros ?%h_pc_after_pipe); by rewrite Epc.
  - by rewrite Epc.
Qed.

(** The actions of a handler only grow, and never by another connect. *)
Lemma handler_step_actions ev h :
  ∃ extra,
    h_actions (handler_step ip ev h) = h_actions h ++ extra ∧
    (∀ host p t, OpenConnection host p t ∉ extra) ∧
    h_port (handler_step ip ev h) = h_port h ∧
    (h_pc (handler_step ip ev h) = HConnecting → extra = []).
Proof.
  assert (Hfin : ∀ r cw uw h0,
    ∃ extra, h_actions (finally r cw uw h0) = h_actions h0 ++ extra ∧
             (∀ host p t, OpenConnection host p t ∉ extra) ∧
             h_port (finally r cw uw h0) = h_port h0 ∧
             (h_pc (finally r cw uw h0) = HConnecting → extra = [])).
  { intros r cw uw h0. eexists. split; [done|]. split_and!; [|done|done].
    intros host p t Hin. destruct uw; simpl in Hin;
      repeat (apply elem_of_cons in Hin as [Hin|Hin]; [done|]);
      by apply elem_of_nil in Hin. }
  assert (Hexc : ∀ e cw uw h0,
    ∃ extra, h_actions (on_exception ip e cw uw h0) = h_actions h0 ++ extra ∧
             (∀ host p t, OpenConnection host p t ∉ extra) ∧
             h_port (on_exception ip e cw uw h0) = h_port h0 ∧
             (h_pc (on_exception ip e cw uw h0) = HConnecting → extra = [])).
  { intros e cw uw h0. unfold on_exception.
    repeat case_match;
      match goal with
      | |- context [finally ?r ?c ?u ?h1] => exact (Hfin r c u h1)
      end. }
  assert (Hsame : ∀ h0 : handler,
    ∃ extra, h_actions h0 = h_actions h0 ++ extra ∧
             (∀ host p t, OpenConnection host p t ∉ extra) ∧
             h_port h0 = h_port h0 ∧
             (h_pc h0 = HConnecting → extra = [])).
  { intros h0. exists []. rewrite (right_id_L [] (++)).
    split_and!; try done. intros ???. apply not_elem_of_nil. }
  assert (Hafter : ∀ p', ∃ extra,
    h_actions (after_pipe ip p' h) = h_actions h ++ extra ∧
    (∀ host p t, OpenConnection host p t ∉ extra) ∧
    h_port (after_pipe ip p' h) = h_port h ∧
    (h_pc (after_pipe ip p' h) = HConnecting → extra = [])).
  { intros p'. unfold after_pipe. destruct (at_pc p') as [|l| |e].
    - exists []. rewrite (right_id_L [] (++)). split_and!; try done.
      intros ???. apply not_elem_of_nil.
    - exists []. rewrite (right_id_L [] (++)). split_and!; try done.
      intros ???. apply not_elem_of_nil.
    - apply Hfin.
    - apply Hexc. }
  unfold handler_step. destruct (h_pc h) as [|p|r].
  - destruct ev as [ur uw|e|s|]; [|apply Hexc|apply Hsame|apply Hexc].
    eexists. split; [done|]. split_and!; [|done|done].
    intros ??? Hin. apply elem_of_cons in Hin as [Hin|Hin]; [done|].
    by apply elem_of_nil in Hin.
  - destruct ev as [ur uw|e|s|]; try apply Hafter; apply Hsame.
  - apply Hsame.
Qed.

Lemma connects_first_init self_port cr cw p :
  connects_first ip (_handle_connection ip self_port cr cw p).
Proof.
  exists []. split_and!; [done|done|]. intros ???. apply not_elem_of_nil.
Qed.

Lemma connects_first_step ev h :
  connects_first ip h → connects_first ip (handler_step ip ev h).
Proof.
  intros (rest & Hact & Hconn & Hno).
  destruct (handler_step_actions ev h) as (extra & Hact' & Hno' & Hport & Hc).
  exists (rest ++ extra). rewrite Hact', Hact, Hport. split_and!.
  - done.
  - intros Hpc. rewrite (Hc Hpc).
    by rewrite (Hconn (handler_step_connecting ev h Hpc)).
  - intros host p t [?|?]%elem_of_app; [by eapply Hno|by eapply Hno'].
Qed.

Lemma connects_first_run evs h :
  connects_first ip h → connects_first ip (run_handler ip evs h).
Proof.
  revert h. induction evs as [|ev evs IH]; intros h Hh; [done|].
  simpl. by apply IH, connects_first_step.
Qed.

Lemma connects_first_settle h :
  connects_first ip h → connects_first ip (settle ip h).
Proof.
  unfold settle. generalize (awaited h) as l. intros l. revert h.
  induction l as [|d l IH]; intros h Hh; [done|].
  cbn [foldl]. by apply IH, connects_first_step, connects_first_step.
Qed.

End HandlerFacts.

(** * Facts about [start] *)

Section StartFacts.

Lemma bind_data_ports_spec bind ports w tr :
  let c := bind_data_ports bind ports w tr in
  ∃ ps,
    servers (after c) = servers w ++ (data_server <$> ps) ∧
    _data_servers (proxy (after c)) =
      _data_servers (proxy w) ++ seq (length (servers w)) (length ps) ∧
    same_but_servers w (after c) ∧
    (∀ p, p ∈ ps → p ∈ ports ∧ bind p = None) ∧
    (outcome c = Returned tt →
       ps = filter (λ p, bind p = None) ports ∧
       trace c = tr ++ data_port_effects (bind_address (proxy w)) bind ports) ∧
    ((∀ p e, p ∈ ports → bind p = Some e → isinstance_OSError e = true) →
       outcome c = Returned tt) ∧
    (∀ e, outcome c = Raised e →
       isinstance_OSError e = false ∧ ∃ p, p ∈ ports ∧ bind p = Some e).
Proof.
  revert w tr. induction ports as [|p rest IH]; intros w tr; cbn zeta.
  { exists []. simpl. rewrite !(right_id_L [] (++)).
    split_and!; try done.
    - intros p Hp. by apply elem_of_nil in Hp. }
  cbn [bind_data_ports]. destruct (bind p) as [e|] eqn:Ebind.
  - destruct (isinstance_OSError e) eqn:Eos.
    + specialize (IH w (tr ++ [StartServer (bind_address (proxy w)) p]
                           ++ [Log (DEBUG, MsgCouldNotBind p e)])).
      cbn zeta in IH. rewrite (assoc_L (++)) in IH.
      destruct IH as (ps & Hs & Hd & Hsame & Hps & Hret & Hall & Hraise).
      exists ps. split_and!; try done.
      * intros q Hq. destruct (Hps q Hq). split; [by right|done].
      * intros Hout. destruct (Hret Hout) as [-> ->]. split.
        -- rewrite filter_cons_False; [done|]. by rewrite Ebind.
        -- unfold data_port_effects. cbn [mbind list_bind].
           rewrite Ebind. by rewrite <- !(assoc_L (++)).
      * intros Hos. apply Hall. intros q e' Hq. apply Hos. by right.
      * intros e' Hout. destruct (Hraise e' Hout) as [? (q & ? & ?)].
        split; [done|]. exists q. split; [by right|done].
    + exists []. simpl. rewrite !(right_id_L [] (++)).
      split_and!; try done.
      * intros q Hq. by apply elem_of_nil in Hq.
      * intros Hos. specialize (Hos p e). rewrite Eos in Hos.
        discriminate Hos; [by left|done].
      * intros e' [= <-]. split; [done|]. exists p. split; [by left|done].
  - cbn [new_server].
    match goal with
    | |- context [bind_data_ports bind rest ?w1 ?tr1] =>
        specialize (IH w1 tr1); cbn zeta in IH;
        remember (bind_data_ports bind rest w1 tr1) as c eqn:Ec; clear Ec
    end.
    destruct IH as (ps & Hs & Hd & Hsame & Hps & Hret & Hall & Hraise).
    unfold same_but_servers in *. simpl in Hs, Hd, Hsame, Hret.
    exists (p :: ps). split_and!; try apply Hsame.
    + rewrite Hs. cbn [fmap list_fmap]. by rewrite <- (assoc_L (++)).
    + rewrite Hd. rewrite length_app. simpl.
      rewrite <- (assoc_L (++)). do 2 f_equal.
      by rewrite Nat.add_1_r.
    + intros q [->|Hq]%elem_of_cons; [split; [by left|done]|].
      destruct (Hps q Hq). split; [by right|done].
    + intros Hout. destruct (Hret Hout) as [-> ->]. split.
      * rewrite filter_cons_True; [done|by rewrite Ebind].
      * unfold data_port_effects. cbn [mbind list_bind].
        rewrite Ebind. simpl. by rewrite <- !(assoc_L (++)).
    + intros Hos. apply Hall. intros q e' Hq. apply Hos. by right.
    + intros e' Hout. destruct (Hraise e' Hout) as [? (q & ? & ?)].
      split; [done|]. exists q. split; [by right|done].
Qed.


(** [start] on a running proxy does nothing. *)
Lemma start_noop bind w :
  _running (proxy w) = true →
  start bind w = {| outcome := Returned tt; after := w; trace := [] |}.
Proof. intros Hrun. unfold start. by rewrite Hrun. Qed.

End StartFacts.

(** * Facts about [stop] *)

Section StopFacts.

Lemma fold_cancel_and_gather l w :
  foldl cancel_and_gather w l =
  set_tasks
    (foldl (λ ts tid,
              alter (λ h, settle (printer_ip (proxy w))
                            (handler_step (printer_ip (proxy w)) Cancel h))
                tid ts)
       (tasks w) l) w.
Proof.
  revert w. induction l as [|tid l IH]; intros w; [by destruct w|].
  cbn [foldl]. rewrite IH. by destruct w.
Qed.

Lemma fold_server_close l w :
  foldl (λ w sid, server_close sid w) w l =
  set_servers (foldl (λ ss sid, alter close_server sid ss) (servers w) l) w.
Proof.
  revert w. induction l as [|sid l IH]; intros w; [by destruct w|].
  cbn [foldl]. rewrite IH. by destruct w.
Qed.

(** [stop] always returns, and this is the world it leaves. *)
Lemma stop_spec w :
  stop w =
  {| outcome := Returned tt;
     after :=
       {| proxy := {| printer_ip := printer_ip (proxy w);
                      bind_address := bind_address (proxy w);
                      port := port (proxy w);
                      _control_server := _control_server (proxy w);
                      _data_servers := [];
                      _running := false;
                      _active_connections := ∅ |};
          servers := closed_servers w;
          tasks := gathered_tasks w |};
     trace := stop_effects w |}.
Proof.
  destruct w as [[ip addr pt ctl ds run act] ss ts].
  unfold stop, gathered_tasks, closed_servers, stop_effects.
  cbn [set_running proxy _active_connections printer_ip bind_address port
       _control_server _data_servers _running servers tasks].
  rewrite fold_cancel_and_gather.
  destruct ctl as [c|];
    cbn [set_running set_tasks set_active_connections server_close
         set_servers proxy _active_connections printer_ip bind_address port
         _control_server _data_servers _running servers tasks];
    rewrite fold_server_close;
    cbn [set_servers set_data_servers proxy _active_connections printer_ip
         bind_address port _control_server _data_servers _running servers
         tasks];
    f_equal; try done; rewrite <- !app_assoc; reflexivity.
Qed.

(** Altering the same positions of a list over and over with a function
    that is idempotent where it matters. *)
Lemma fold_alter_lookup {A} (f : A → A) (l : list nat) (ts : list A) i :
  (∀ x, ts !! i = Some x → f (f x) = f x) →
  foldl (λ ts j, alter f j ts) ts l !! i =
    if decide (i ∈ l) then f <$> ts !! i else ts !! i.
Proof.
  revert ts. induction l as [|a l IH]; intros ts Hidem.
  { cbn [foldl]. rewrite decide_False; [done|apply not_elem_of_nil]. }
  cbn [foldl]. rewrite IH.
  - destruct (decide (a = i)) as [->|Hne].
    + rewrite list_lookup_alter_eq. rewrite (decide_True (P := i ∈ i :: l));
        [|by left].
      destruct (decide (i ∈ l)); [|done].
      destruct (ts !! i) as [x|] eqn:E; [|done]. simpl. f_equal. by apply Hidem.
    + rewrite list_lookup_alter_ne by done.
      destruct (decide (i ∈ l)) as [Hin|Hnin].
      * rewrite decide_True; [done|by right].
      * rewrite decide_False; [done|].
        intros [?|?]%elem_of_cons; [congruence|done].
  - intros x. destruct (decide (a = i)) as [->|Hne].
    + rewrite list_lookup_alter_eq. destruct (ts !! i) as [x0|] eqn:E; [|done].
      simpl. intros [= <-]. pose proof (Hidem x0 eq_refl) as Hx. by rewrite !Hx.
    + rewrite list_lookup_alter_ne by done. apply Hidem.
Qed.

Lemma fold_alter_length {A} (f : A → A) (l : list nat) (ts : list A) :
  length (foldl (λ ts j, alter f j ts) ts l) = length ts.
Proof.
  revert ts. induction l as [|a l IH]; intros ts; [done|].
  cbn [foldl]. by rewrite IH, length_alter.
Qed.

Lemma close_server_idem s : close_server (close_server s) = close_server s.
Proof. done. Qed.

Lemma alter_fixed {A} (f : A → A) (l : list A) i :
  (∀ x, l !! i = Some x → f x = x) → alter f i l = l.
Proof.
  intros Hfix. apply list_eq. intros j.
  destruct (decide (i = j)) as [->|Hne].
  - rewrite list_lookup_alter_eq. destruct (l !! j) as [x|] eqn:E; [|done].
    simpl. f_equal. by apply Hfix.
  - by rewrite list_lookup_alter_ne.
Qed.

(** The servers [stop] leaves: the held ones are closed, the others are as
    they were. *)
Lemma closed_servers_lookup w sid :
  closed_servers w !! sid =
    if decide (_control_server (proxy w) = Some sid ∨
               sid ∈ _data_servers (proxy w))
    then close_server <$> servers w !! sid
    else servers w !! sid.
Proof.
  unfold closed_servers. rewrite fold_alter_lookup by done.
  destruct (_control_server (proxy w)) as [c|].
  - destruct (decide (c = sid)) as [->|Hne].
    + rewrite list_lookup_alter_eq.
      rewrite (decide_True (P := _ ∨ _)) by (by left).
      destruct (decide (sid ∈ _)); [|done].
      by destruct (servers w !! sid).
    + rewrite list_lookup_alter_ne by done.
      destruct (decide (sid ∈ _data_servers (proxy w))) as [Hin|Hnin].
      * rewrite decide_True; [done|by right].
      * rewrite decide_False; [done|]. intros [[=]|?]; done.
  - destruct (decide (sid ∈ _data_servers (proxy w))) as [Hin|Hnin].
    + rewrite decide_True; [done|by right].
    + rewrite decide_False; [done|]. intros [[=]|?]; done.
Qed.

(** The tasks [stop] leaves, in a world that satisfies the invariant: the
    registered ones were cancelled and gathered. *)
Lemma gathered_tasks_lookup ip w tid :
  world_ok ip w →
  gathered_tasks w !! tid =
    if decide (tid ∈ _active_connections (proxy w))
    then (λ h, settle ip (handler_step ip Cancel h)) <$> tasks w !! tid
    else tasks w !! tid.
Proof.
  intros Hok. unfold gathered_tasks. rewrite (ok_ip _ _ Hok).
  rewrite fold_alter_lookup.
  - destruct (decide (tid ∈ elements _)) as [Hin|Hnin].
    + rewrite decide_True; [done|]. by apply elem_of_elements.
    + rewrite decide_False; [done|]. by rewrite <- elem_of_elements.
  - intros h Hh. destruct (ok_tasks _ _ Hok tid h Hh) as [Hhok _].
    pose proof (settle_cancelled ip h Hhok) as Hd.
    rewrite (handler_step_done ip Cancel _ Hd).
    by rewrite settle_done.
Qed.


End StopFacts.

(** * The world invariant *)

Section Invariant.

(** [start] on a proxy that is not running, when the control port does not
    bind: the exception leaves [start] and only the flag has changed. *)
Lemma start_control_fails bind w e :
  _running (proxy w) = false → bind (port (proxy w)) = Some e →
  start bind w =
  {| outcome := Raised e; after := set_running true w;
     trace := [Log (INFO, MsgStarting (bind_address (proxy w))
                            (port (proxy w)));
               StartServer (bind_address (proxy w)) (port (proxy w))] |}.
Proof.
  intros Hrun Hbind. unfold start. rewrite Hrun. cbn zeta.
  cbn [set_running proxy port bind_address]. by rewrite Hbind.
Qed.

(** [start] on a proxy that is not running, when the control port binds. *)
Lemma start_control_binds bind w :
  _running (proxy w) = false → bind (port (proxy w)) = None →
  let c := start bind w in
  ∃ ps,
    servers (after c) =
      servers w ++
      {| bound_port := port (proxy w); client_connected_cb := ControlCallback;
         is_serving := true |} :: (data_server <$> ps) ∧
    proxy (after c) =
      {| printer_ip := printer_ip (proxy w);
         bind_address := bind_address (proxy w);
         port := port (proxy w);
         _control_server := Some (length (servers w));
         _data_servers :=
           _data_servers (proxy w) ++
           seq (S (length (servers w))) (length ps);
         _running := true;
         _active_connections := _active_connections (proxy w) |} ∧
    tasks (after c) = tasks w ∧
    (∀ p, p ∈ ps → p ∈ data_port_range ∧ bind p = None) ∧
    (outcome c = Returned tt →
       ps = filter (λ p, bind p = None) data_port_range ∧
       trace c =
         [Log (INFO, MsgStarting (bind_address (proxy w)) (port (proxy w)));
          StartServer (bind_address (proxy w)) (port (proxy w))] ++
         data_port_effects (bind_address (proxy w)) bind data_port_range ++
         [Log (INFO, MsgListening (port (proxy w)) FTP_DATA_PORT_START
                       FTP_DATA_PORT_END)]) ∧
    ((∀ p e, p ∈ data_port_range → bind p = Some e →
             isinstance_OSError e = true) →
       outcome c = Returned tt) ∧
    (∀ e, outcome c = Raised e →
       isinstance_OSError e = false ∧
       ∃ p, p ∈ data_port_range ∧ bind p = Some e).
Proof.
  intros Hrun Hbind. unfold start. rewrite Hrun. cbn zeta.
  cbn [set_running proxy port bind_address]. rewrite Hbind.
  cbn [new_server].
  match goal with
  | |- context [bind_data_ports bind data_port_range ?w1 ?tr1] =>
      destruct (bind_data_ports_spec bind data_port_range w1 tr1)
        as (ps & Hs & Hd & Hsame & Hps & Hret & Hall & Hraise);
      remember (bind_data_ports bind data_port_range w1 tr1) as c eqn:Ec;
      clear Ec
  end.
  unfold same_but_servers in Hsame.
  cbn [proxy servers tasks set_control_server set_servers set_running
       set_data_servers bind_address printer_ip port _control_server
       _data_servers _running _active_connections] in Hs, Hd, Hsame, Hret.
  destruct Hsame as (Hip & Haddr & Hport & Hctl & Hr & Hact & Hts).
  exists ps.
  assert (Hafter : ∀ c' : call, after c' = after c →
    servers (after c') =
      servers w ++
      {| bound_port := port (proxy w); client_connected_cb := ControlCallback;
         is_serving := true |} :: (data_server <$> ps) ∧
    proxy (after c') =
      {| printer_ip := printer_ip (proxy w);
         bind_address := bind_address (proxy w);
         port := port (proxy w);
         _control_server := Some (length (servers w));
         _data_servers :=
           _data_servers (proxy w) ++
           seq (S (length (servers w))) (length ps);
         _running := true;
         _active_connections := _active_connections (proxy w) |} ∧
    tasks (after c') = tasks w).
  { intros c' ->. split_and!; [by rewrite Hs, <- app_assoc| |done].
    destruct (proxy (after c)); simpl in *.
    rewrite length_app, Nat.add_1_r in Hd. by subst. }
  destruct (outcome c) as [[]|e] eqn:Eout.
  - destruct (Hafter _ eq_refl) as (H1 & H2 & H3).
    cbn [outcome after trace] in *. split_and!; try done.
    + intros _. destruct (Hret eq_refl) as [-> ->]. split; [done|].
      by rewrite <- (assoc_L (++)).
  - rewrite Eout. destruct (Hafter c eq_refl) as (H1 & H2 & H3).
    split_and!; done.
Qed.

Lemma world_ok_init ip addr : world_ok ip (init ip addr).
Proof. split; simpl; try done. Qed.

Lemma world_ok_set_running ip w :
  world_ok ip w → world_ok ip (set_running true w).
Proof. intros [? ? ? ? ? ?]. split; simpl; try done. Qed.

Lemma world_ok_start ip bind w :
  world_ok ip w → world_ok ip (after (start bind w)).
Proof.
  intros Hok. destruct (_running (proxy w)) eqn:Erun.
  { by rewrite start_noop. }
  destruct (bind (port (proxy w))) as [e|] eqn:Ebind.
  { rewrite (start_control_fails bind w e) by done.
    by apply world_ok_set_running. }
  destruct (start_control_binds bind w Erun Ebind)
    as (ps & Hs & Hp & Hts & _).
  destruct Hok as [Hip Hport Htasks Hheld Hidle Hcb].
  split; rewrite ?Hp, ?Hts, ?Hs; simpl; try done.
  - (* every serving server is held *)
    intros sid srv Hsid Hserving.
    destruct (decide (sid < length (servers w))%nat) as [Hlt|Hge].
    + rewrite lookup_app_l in Hsid by done.
      rewrite (Hidle Erun sid srv Hsid) in Hserving. done.
    + destruct (decide (sid = length (servers w))) as [->|Hne]; [by left|].
      right. apply elem_of_app. right. apply elem_of_seq.
      apply lookup_lt_Some in Hsid.
      rewrite length_app in Hsid. simpl in Hsid.
      rewrite length_fmap in Hsid. lia.
  - (* every callback passes the bound port *)
    intros sid srv Hsid.
    apply lookup_app_Some in Hsid as [Hsid|[_ Hsid]]; [by apply (Hcb sid)|].
    destruct (sid - length (servers w))%nat as [|k]; simpl in Hsid.
    + by injection Hsid as <-.
    + apply list_lookup_fmap_Some in Hsid as (p & -> & _). done.
Qed.

Lemma stop_no_listeners ip w sid srv :
  world_ok ip w → closed_servers w !! sid = Some srv → is_serving srv = false.
Proof.
  intros Hok. rewrite closed_servers_lookup.
  destruct (decide _) as [Hheld|Hnot].
  - destruct (servers w !! sid); [|done]. by intros [= <-].
  - intros Hsid. destruct (is_serving srv) eqn:E; [|done].
    destruct Hnot. by eapply ok_held.
Qed.

Lemma world_ok_stop ip w : world_ok ip w → world_ok ip (after (stop w)).
Proof.
  intros Hok. rewrite stop_spec. cbn [after].
  split; cbn [proxy servers tasks printer_ip port _running
              _active_connections _control_server _data_servers].
  - by apply ok_ip.
  - by eapply ok_port.
  - intros tid h. rewrite (gathered_tasks_lookup ip) by done.
    destruct (decide _).
    + destruct (tasks w !! tid) as [h0|] eqn:E; [|done]. simpl.
      intros [= <-]. destruct (ok_tasks _ _ Hok tid h0 E). split.
      * by apply settle_ok, handler_ok_step.
      * by apply connects_first_settle, connects_first_step.
    + by apply ok_tasks.
  - intros sid srv Hsid Hserving.
    by rewrite (stop_no_listeners ip w sid srv Hok Hsid) in Hserving.
  - intros _ sid srv Hsid. by eapply stop_no_listeners.
  - intros sid srv. rewrite closed_servers_lookup.
    destruct (decide _); [|by apply (ok_cb _ _ Hok)].
    destruct (servers w !! sid) as [s0|] eqn:E; [|done]. simpl.
    intros [= <-]. simpl. by eapply (ok_cb _ _ Hok).
Qed.

Lemma world_ok_accept ip sid r ds w :
  world_ok ip w → world_ok ip (accept sid r ds w).
Proof.
  intros Hok. unfold accept.
  destruct (servers w !! sid) as [srv|]; [|done].
  destruct (is_serving srv); [|done].
  destruct Hok as [Hip Hport Htasks Hheld Hidle Hcb].
  split; simpl; try done.
  - intros tid h [Hh|[_ Hh]]%lookup_app_Some; [by apply (Htasks tid)|].
    destruct (tid - length (tasks w))%nat; [|done].
    injection Hh as <-. rewrite Hip. split.
    + apply handler_ok_init.
    + apply connects_first_init.
Qed.

Lemma world_ok_resume ip tid ev w :
  world_ok ip w → world_ok ip (resume tid ev w).
Proof.
  intros Hok. unfold resume.
  destruct (tasks w !! tid) as [h|] eqn:Eh; [|done].
  destruct (hdone h) eqn:Ed; [done|].
  destruct Hok as [Hip Hport Htasks Hheld Hidle Hcb].
  destruct (Htasks tid h Eh) as [Hhok Hhc].
  assert (Hlt : (tid < length (tasks w))%nat) by by eapply lookup_lt_Some.
  assert (Htasks' : ∀ tid' h',
            <[tid:=handler_step (printer_ip (proxy w)) ev h]> (tasks w)
              !! tid' = Some h' →
            handler_ok h' ∧ connects_first ip h').
  { intros tid' h'. destruct (decide (tid = tid')) as [<-|Hne].
    - rewrite list_lookup_insert_eq by done. intros [= <-]. rewrite Hip.
      split; [by apply handler_ok_step|by apply connects_first_step].
    - rewrite list_lookup_insert_ne by done. apply Htasks. }
  destruct (hdone (handler_step (printer_ip (proxy w)) ev h)) eqn:Ed';
    split; simpl; done.
Qed.

End Invariant.

(** * [stop] with what happens at its awaits *)

Section StopDuringFacts.

(** ** What happens while [stop] is suspended *)

Lemma same_shell_refl w : same_shell w w.
Proof.
  exists (_active_connections (proxy w)), (tasks w). by destruct w as [[]].
Qed.

Lemma same_shell_set_tasks T w : same_shell w (set_tasks T w).
Proof.
  exists (_active_connections (proxy w)), T. by destruct w as [[]].
Qed.

Lemma same_shell_trans w1 w2 w3 :
  same_shell w1 w2 → same_shell w2 w3 → same_shell w1 w3.
Proof. intros (A & T & ->) (A' & T' & ->). by exists A', T'. Qed.

Lemma same_shell_accept sid r ds w : same_shell w (accept sid r ds w).
Proof.
  unfold accept. destruct (servers w !! sid) as [srv|]; [|apply same_shell_refl].
  destruct (is_serving srv); [|apply same_shell_refl].
  eexists _, _. reflexivity.
Qed.

Lemma same_shell_resume tid ev w : same_shell w (resume tid ev w).
Proof.
  unfold resume. destruct (tasks w !! tid) as [h|]; [|apply same_shell_refl].
  destruct (hdone h); [apply same_shell_refl|].
  destruct (hdone (handler_step _ ev h)); [eexists _, _; reflexivity|].
  apply same_shell_set_tasks.
Qed.

Lemma same_shell_happen e w : same_shell w (happen w e).
Proof. destruct e; [apply same_shell_accept|apply same_shell_resume]. Qed.

Lemma same_shell_events evs w : same_shell w (events evs w).
Proof.
  revert w. induction evs as [|e evs IH]; intros w; [apply same_shell_refl|].
  eapply same_shell_trans; [apply (same_shell_happen e)|apply IH].
Qed.

Lemma same_shell_gather_task tid w : same_shell w (gather_task w tid).
Proof.
  unfold gather_task. destruct (tasks w !! tid) as [h|]; [|apply same_shell_refl].
  destruct (hdone (settle _ h)); [eexists _, _; reflexivity|].
  apply same_shell_set_tasks.
Qed.

Lemma same_shell_foldl (f : World → nat → World) l w :
  (∀ w tid, same_shell w (f w tid)) → same_shell w (foldl f w l).
Proof.
  intros Hf. revert w.
  induction l as [|x l IH]; intros w; [apply same_shell_refl|].
  eapply same_shell_trans; [apply (Hf w x)|apply IH].
Qed.

(** The connections part of [stop] changes nothing but the tasks and
    [_active_connections], which it leaves empty; its effects are those of
    the undisturbed [stop]. *)
Lemma stop_connections_shell g w :
  ∃ T, stop_connections g w =
       (set_active_connections ∅ (set_tasks T w),
        (TaskCancel <$> elements (_active_connections (proxy w))) ++
        (if bool_decide (elements (_active_connections (proxy w)) = [])
         then [] else [Gather (elements (_active_connections (proxy w)))])).
Proof.
  unfold stop_connections. cbn zeta.
  set (active := elements (_active_connections (proxy w))).
  assert (Hs : same_shell w
    (if bool_decide (active = []) then foldl cancel_task w active
     else foldl gather_task (events g (foldl cancel_task w active)) active)).
  { assert (Hc : same_shell w (foldl cancel_task w active)).
    { apply same_shell_foldl. intros w' tid. apply same_shell_resume. }
    destruct (bool_decide (active = [])); [done|].
    eapply same_shell_trans; [exact Hc|].
    eapply same_shell_trans; [apply same_shell_events|].
    apply same_shell_foldl. intros w' tid. apply same_shell_gather_task. }
  destruct Hs as (A & T & ->). by exists T.
Qed.

Lemma stop_control_shell c w :
  ∃ A T, stop_control c w =
         (set_active_connections A
            (set_tasks T
               match _control_server (proxy w) with
               | Some ctl => server_close ctl w
               | None => w
               end),
          match _control_server (proxy w) with
          | Some ctl => [ServerClose ctl; ServerWaitClosed ctl]
          | None => []
          end).
Proof.
  unfold stop_control. destruct (_control_server (proxy w)) as [ctl|].
  - destruct (same_shell_events c (server_close ctl w)) as (A & T & ->).
    by exists A, T.
  - destruct (same_shell_refl w) as (A & T & Hw). exists A, T. by rewrite <- Hw.
Qed.

Lemma stop_data_shell d w :
  ∃ A T, stop_data d w =
         (set_active_connections A
            (set_tasks T
               (set_data_servers []
                  (foldl (λ w sid, server_close sid w) w
                     (_data_servers (proxy w))))),
          (ServerClose <$> _data_servers (proxy w)) ++
          (ServerWaitClosed <$> _data_servers (proxy w))).
Proof.
  unfold stop_data. cbn zeta.
  set (w1 := foldl (λ w sid, server_close sid w) w (_data_servers (proxy w))).
  assert (Hd : same_shell w1
            (if bool_decide (_data_servers (proxy w) = []) then w1
             else events d w1))
    by (destruct (bool_decide _);
          [apply same_shell_refl|apply same_shell_events]).
  destruct Hd as (A & T & ->). by exists A, T.
Qed.

Lemma stop_during_shell g c d w :
  ∃ A T,
    stop_during g c d w =
    {| outcome := Returned tt;
       after := set_active_connections A (set_tasks T (after (stop w)));
       trace := stop_effects w |}.
Proof.
  rewrite stop_spec. unfold stop_during.
  destruct (stop_connections_shell g (set_running false w)) as (T1 & ->).
  match goal with
  | |- context [stop_control c ?w1] =>
      destruct (stop_control_shell c w1) as (A2 & T2 & ->)
  end.
  match goal with
  | |- context [stop_data d ?w1] =>
      destruct (stop_data_shell d w1) as (A3 & T3 & ->)
  end.
  exists A3, T3. unfold stop_effects, closed_servers.
  destruct w as [[ip addr pt ctl ds run act] ss ts].
  cbn [set_running set_active_connections set_tasks proxy servers tasks
       printer_ip bind_address port _control_server _data_servers _running
       _active_connections after].
  destruct ctl as [ctl|];
    cbn [server_close set_servers set_active_connections set_tasks proxy
         servers tasks printer_ip bind_address port _control_server
         _data_servers _running _active_connections];
    rewrite fold_server_close;
    cbn [set_servers set_active_connections set_tasks set_data_servers proxy
         servers tasks printer_ip bind_address port _control_server
         _data_servers _running _active_connections];
    f_equal; by rewrite <- !(assoc_L (++)).
Qed.

Lemma same_shell_ip w w' :
  same_shell w w' → printer_ip (proxy w') = printer_ip (proxy w).
Proof. by intros (A & T & ->). Qed.

Lemma alter_absent {A} (f : A → A) (l : list A) i :
  l !! i = None → alter f i l = l.
Proof. intros Hi. apply alter_fixed. intros x. by rewrite Hi. Qed.

Lemma alter_insert {A} (f : A → A) (l : list A) i x :
  l !! i = Some x → <[i := f x]> l = alter f i l.
Proof.
  intros Hi. apply list_eq. intros j.
  assert (Hlt : (i < length l)%nat) by by eapply lookup_lt_Some.
  destruct (decide (i = j)) as [<-|Hne].
  - rewrite list_lookup_insert_eq by done.
    by rewrite list_lookup_alter_eq, Hi.
  - by rewrite list_lookup_insert_ne, list_lookup_alter_ne.
Qed.

(** Resuming a task alters that task, and no other. *)
Lemma resume_tasks tid ev w :
  tasks (resume tid ev w) =
  alter (handler_step (printer_ip (proxy w)) ev) tid (tasks w).
Proof.
  unfold resume. destruct (tasks w !! tid) as [h|] eqn:Eh.
  - destruct (hdone h) eqn:Ed.
    + symmetry. apply alter_fixed. intros h' Hh'.
      assert (h' = h) as -> by congruence. by apply handler_step_done.
    + rewrite <- (alter_insert _ _ _ h Eh).
      by destruct (hdone (handler_step _ ev h)).
  - symmetry. by apply alter_absent.
Qed.

Lemma gather_task_tasks tid w :
  tasks (gather_task w tid) =
  alter (settle (printer_ip (proxy w))) tid (tasks w).
Proof.
  unfold gather_task. destruct (tasks w !! tid) as [h|] eqn:Eh.
  - rewrite <- (alter_insert _ _ _ h Eh). by destruct (hdone (settle _ h)).
  - symmetry. by apply alter_absent.
Qed.

(** A property of every task survives the alteration of one of them. *)
Lemma each_alter (Q Q' : nat → handler → Prop) f a w w' :
  tasks w' = alter f a (tasks w) →
  (∀ h, Q a h → Q' a (f h)) →
  (∀ t h, t ≠ a → Q t h → Q' t h) →
  each Q w → each Q' w'.
Proof.
  intros Hts Ha Hother Hw tid h. rewrite Hts.
  destruct (decide (a = tid)) as [<-|Hne].
  - rewrite list_lookup_alter_eq.
    destruct (tasks w !! a) as [h0|] eqn:E; [|done]. simpl.
    intros [= <-]. by apply Ha, Hw.
  - rewrite list_lookup_alter_ne by done. intros Hh.
    apply Hother; [done|]. by apply Hw.
Qed.


Lemma forwards_to_same_tasks ip n Q w w' :
  printer_ip (proxy w') = printer_ip (proxy w) → tasks w' = tasks w →
  forwards_to ip n Q w → forwards_to ip n Q w'.
Proof.
  intros Hip' Hts (Hip & Hn & Hw). unfold forwards_to, each.
  by rewrite Hip', Hts.
Qed.

(** One task is altered by [f], the others are left alone. *)
Lemma forwards_to_alter ip n (Q Q' : nat → handler → Prop) f a w w' :
  same_shell w w' → tasks w' = alter f a (tasks w) →
  (∀ h, Q a h → Q' a (f h)) →
  (∀ t h, t ≠ a → Q t h → Q' t h) →
  forwards_to ip n Q w → forwards_to ip n Q' w'.
Proof.
  intros Hshell Hts Ha Hother (Hip & Hn & Hw). split_and!.
  - by rewrite (same_shell_ip _ _ Hshell).
  - by rewrite Hts, length_alter.
  - by eapply each_alter.
Qed.

Lemma forwards_to_resume ip n (Q : nat → handler → Prop) tid ev w :
  (∀ h, Q tid h → Q tid (handler_step ip ev h)) →
  forwards_to ip n Q w → forwards_to ip n Q (resume tid ev w).
Proof.
  intros Hstep Hw. pose proof Hw as (Hip & _).
  eapply forwards_to_alter;
    [apply same_shell_resume|apply resume_tasks| |by intros|exact Hw].
  by rewrite Hip.
Qed.

Lemma forwards_to_gather_task ip n (Q : nat → handler → Prop) tid w :
  (∀ h, Q tid h → Q tid (settle ip h)) →
  forwards_to ip n Q w → forwards_to ip n Q (gather_task w tid).
Proof.
  intros Hstep Hw. pose proof Hw as (Hip & _).
  eapply forwards_to_alter;
    [apply same_shell_gather_task|apply gather_task_tasks| |by intros
    |exact Hw].
  by rewrite Hip.
Qed.

(** An accepted connection is a new task, after the [n] first ones. *)
Lemma forwards_to_accept ip n (Q : nat → handler → Prop) sid r ds w :
  (∀ t self_port cw p, (n ≤ t)%nat →
     Q t (_handle_connection ip self_port r cw p)) →
  forwards_to ip n Q w → forwards_to ip n Q (accept sid r ds w).
Proof.
  intros Hnew (Hip & Hn & Hw). split_and!.
  - by rewrite (same_shell_ip _ _ (same_shell_accept sid r ds w)).
  - unfold accept. destruct (servers w !! sid) as [srv|]; [|done].
    destruct (is_serving srv); [|done].
    cbn [tasks set_active_connections set_tasks]. rewrite length_app. lia.
  - unfold accept. destruct (servers w !! sid) as [srv|]; [|done].
    destruct (is_serving srv); [|done].
    intros tid h. cbn [tasks set_active_connections set_tasks].
    intros [Hh|[Hlen Hh]]%lookup_app_Some; [by apply Hw|].
    destruct (tid - length (tasks w))%nat eqn:E; [|done].
    injection Hh as <-. rewrite Hip. apply Hnew. lia.
Qed.

Lemma events_preserves (P : World → Prop) evs w :
  (∀ w e, e ∈ evs → P w → P (happen w e)) → P w → P (events evs w).
Proof.
  revert w. induction evs as [|e evs IH]; intros w Hstep Hw; [done|].
  cbn [events foldl]. apply IH.
  - intros w' e' He'. apply Hstep. by right.
  - apply Hstep; [by left|done].
Qed.

Lemma foldl_preserves {A} (P : World → Prop) (f : World → A → World) l w :
  (∀ w a, a ∈ l → P w → P (f w a)) → P w → P (foldl f w l).
Proof.
  revert w. induction l as [|a l IH]; intros w Hstep Hw; [done|].
  cbn [foldl]. apply IH.
  - intros w' a' Ha'. apply Hstep. by right.
  - apply Hstep; [by left|done].
Qed.

(** ** Handlers that wind down *)

Lemma sound_init ip self_port cr cw p :
  sound ip (_handle_connection ip self_port cr cw p).
Proof. split; [apply handler_ok_init|apply connects_first_init]. Qed.

Lemma sound_step ip ev h : sound ip h → sound ip (handler_step ip ev h).
Proof.
  intros [Hok Hc]. split; [by apply handler_ok_step|by apply connects_first_step].
Qed.

Lemma sound_settle ip h : sound ip h → sound ip (settle ip h).
Proof.
  intros [Hok Hc]. split; [by apply settle_ok|by apply connects_first_settle].
Qed.






Lemma hdone_step ip ev h :
  hdone (handler_step ip ev h) = false → hdone h = false.
Proof.
  intros Hd. destruct (hdone h) eqn:E; [|done].
  rewrite handler_step_done in Hd by done. congruence.
Qed.

Lemma hdone_settle ip h : hdone (settle ip h) = false → hdone h = false.
Proof.
  intros Hd. destruct (hdone h) eqn:E; [|done].
  rewrite settle_done in Hd by done. congruence.
Qed.

(** ** The parts of [stop_during] *)

Lemma stop_during_after g c d w :
  after (stop_during g c d w) =
  (stop_data d
     (stop_control c
        (stop_connections g (set_running false w)).1).1).1.
Proof.
  unfold stop_during.
  destruct (stop_connections g (set_running false w)) as [w1 tr1].
  cbn [fst]. destruct (stop_control c w1) as [w2 tr2].
  cbn [fst]. by destruct (stop_data d w2) as [w3 tr3].
Qed.

Lemma forwards_to_set_running ip n Q b w :
  forwards_to ip n Q w → forwards_to ip n Q (set_running b w).
Proof. by apply forwards_to_same_tasks. Qed.

Lemma forwards_to_clear ip n Q A w :
  forwards_to ip n Q w → forwards_to ip n Q (set_active_connections A w).
Proof. by apply forwards_to_same_tasks. Qed.

Lemma forwards_to_server_close ip n Q sid w :
  forwards_to ip n Q w → forwards_to ip n Q (server_close sid w).
Proof. by apply forwards_to_same_tasks. Qed.

Lemma forwards_to_set_data_servers ip n Q l w :
  forwards_to ip n Q w → forwards_to ip n Q (set_data_servers l w).
Proof. by apply forwards_to_same_tasks. Qed.

(** What survives the steps of connection tasks and the arrival of new
    ones survives whatever happens while [stop] is suspended. *)
Lemma forwards_to_happen ip n (Q : nat → handler → Prop) e w :
  (∀ t ev h, Q t h → Q t (handler_step ip ev h)) →
  (∀ t self_port cr cw p, (n ≤ t)%nat →
     Q t (_handle_connection ip self_port cr cw p)) →
  forwards_to ip n Q w → forwards_to ip n Q (happen w e).
Proof.
  intros Hstep Hnew Hw. destruct e as [sid r ds|tid ev]; cbn [happen].
  - apply forwards_to_accept; [|done]. intros t self_port cw p.
    apply Hnew.
  - apply forwards_to_resume; [|done]. intros h. apply Hstep.
Qed.





Lemma stop_connections_preserves (P : World → Prop) g w :
  (∀ w tid, P w → P (cancel_task w tid)) →
  (∀ w e, e ∈ g → P w → P (happen w e)) →
  (∀ w tid, P w → P (gather_task w tid)) →
  (∀ w, P w → P (set_active_connections ∅ w)) →
  P w → P (stop_connections g w).1.
Proof.
  intros Hcancel Hhappen Hgather Hclear Hw.
  unfold stop_connections. cbn [fst]. apply Hclear.
  assert (Hc : P (foldl cancel_task w
                    (elements (_active_connections (proxy w)))))
    by (apply foldl_preserves; [intros w' a _; apply Hcancel|done]).
  destruct (bool_decide _); [done|].
  apply foldl_preserves; [intros w' a _; apply Hgather|].
  by apply events_preserves.
Qed.

Lemma stop_control_preserves (P : World → Prop) c w :
  (∀ w sid, P w → P (server_close sid w)) →
  (∀ w e, e ∈ c → P w → P (happen w e)) →
  P w → P (stop_control c w).1.
Proof.
  intros Hclose Hhappen Hw. unfold stop_control.
  destruct (_control_server (proxy w)) as [ctl|]; [|done].
  cbn [fst]. apply events_preserves; [done|]. by apply Hclose.
Qed.

Lemma stop_data_preserves (P : World → Prop) d w :
  (∀ w sid, P w → P (server_close sid w)) →
  (∀ w e, e ∈ d → P w → P (happen w e)) →
  (∀ w, P w → P (set_data_servers [] w)) →
  P w → P (stop_data d w).1.
Proof.
  intros Hclose Hhappen Hdata Hw. unfold stop_data. cbn [fst].
  apply Hdata.
  assert (Hc : P (foldl (λ w sid, server_close sid w) w
                    (_data_servers (proxy w))))
    by (apply foldl_preserves; [intros w' a _; by apply Hclose|done]).
  destruct (bool_decide _); [done|]. by apply events_preserves.
Qed.

(** What survives the steps of connection tasks, their gathering and the
    arrival of new ones survives a [stop], whatever happens during it. *)
Lemma stop_during_forwards ip n (Q : nat → handler → Prop) g c d w :
  (∀ t ev h, Q t h → Q t (handler_step ip ev h)) →
  (∀ t h, Q t h → Q t (settle ip h)) →
  (∀ t self_port cr cw p, (n ≤ t)%nat →
     Q t (_handle_connection ip self_port cr cw p)) →
  forwards_to ip n Q w → forwards_to ip n Q (after (stop_during g c d w)).
Proof.
  intros Hstep Hsettle Hnew Hw. rewrite stop_during_after.
  apply stop_data_preserves;
    [intros; by apply forwards_to_server_close
    |intros; by apply forwards_to_happen
    |intros; by apply forwards_to_set_data_servers|].
  apply stop_control_preserves;
    [intros; by apply forwards_to_server_close
    |intros; by apply forwards_to_happen|].
  apply stop_connections_preserves;
    [|intros; by apply forwards_to_happen| |intros; by apply forwards_to_clear
    |by apply forwards_to_set_running].
  - intros w' tid Hw'. apply forwards_to_resume; [|done]. intros h. apply Hstep.
  - intros w' tid Hw'. apply forwards_to_gather_task; [|done]. intros h.
    apply Hsettle.
Qed.

Lemma world_ok_forwards ip w :
  world_ok ip w → forwards_to ip 0 (λ _ h, sound ip h) w.
Proof.
  intros Hok. split_and!; [by apply ok_ip|lia|].
  intros tid h Hh. by apply (ok_tasks _ _ Hok tid).
Qed.

Lemma world_ok_stop_during ip g c d w :
  world_ok ip w → world_ok ip (after (stop_during g c d w)).
Proof.
  intros Hok.
  assert (Hts : forwards_to ip 0 (λ _ h, sound ip h)
                  (after (stop_during g c d w))).
  { apply stop_during_forwards; [| | |by apply world_ok_forwards].
    - intros t ev h. apply sound_step.
    - intros t h. apply sound_settle.
    - intros t self_port cr cw p _. apply sound_init. }
  destruct Hts as (_ & _ & Hts).
  destruct (stop_during_shell g c d w) as (A & T & Heq).
  rewrite Heq in Hts |- *. cbn [after] in *.
  destruct (world_ok_stop ip w Hok) as [Hip Hport _ Hheld Hidle Hcb].
  split; try done.
Qed.

(** ** [stop] is [stop_during] without events *)








End StopDuringFacts.

(** * The invariant holds after every run *)

Section Runs.

Lemma world_ok_exec ip w o : world_ok ip w → world_ok ip (exec w o).
Proof.
  destruct o; simpl.
  - apply world_ok_start.
  - apply world_ok_stop.
  - apply world_ok_accept.
  - apply world_ok_resume.
  - apply world_ok_stop_during.
Qed.

Lemma world_ok_run ip ops w : world_ok ip w → world_ok ip (run ops w).
Proof.
  revert w. induction ops as [|o ops IH]; intros w Hw; [done|].
  simpl. by apply IH, world_ok_exec.
Qed.

End Runs.

(** * The proxy: claims C2, C3, C4, C5, C6, C8, C9 and C10 *)

Section ProxyClaims.

Lemma filter_serving_data (ps : list Z) :
  filter (λ s, is_serving s = true) (data_server <$> ps) = data_server <$> ps.
Proof.
  induction ps as [|p ps IH]; [done|].
  cbn [fmap list_fmap]. rewrite filter_cons_True by done.
  f_equal. apply IH.
Qed.

Lemma bound_port_data (ps : list Z) : bound_port <$> (data_server <$> ps) = ps.
Proof. induction ps as [|p ps IH]; [done|]. simpl. f_equal. apply IH. Qed.

Lemma data_port_effects_log addr bind ports p e :
  p ∈ ports → bind p = Some e →
  Log (DEBUG, MsgCouldNotBind p e) ∈ data_port_effects addr bind ports.
Proof.
  intros Hp Hbind. unfold data_port_effects. apply list_elem_of_bind.
  exists p. split; [|done]. rewrite Hbind. right. by left.
Qed.

(** C2.  When the control port does not bind, the exception leaves [start]:
    no data port is tried and no listener exists.  When the control port
    binds and data ports fail with [OSError], [start] returns normally: the
    new listeners are the control port and exactly the data ports of
    [2000, 2100] that bound, each failed data port is skipped with a debug
    record, and every data port is still tried. *)
Theorem start_bind_failures bind w :
  _running (proxy w) = false →
  (∀ e, bind (port (proxy w)) = Some e →
     start bind w =
     {| outcome := Raised e; after := set_running true w;
        trace := [Log (INFO, MsgStarting (bind_address (proxy w))
                               (port (proxy w)));
                  StartServer (bind_address (proxy w)) (port (proxy w))] |}) ∧
  (bind (port (proxy w)) = None →
   (∀ p e, p ∈ data_port_range → bind p = Some e →
           isinstance_OSError e = true) →
     outcome (start bind w) = Returned tt ∧
     servers (after (start bind w)) =
       servers w ++
       {| bound_port := port (proxy w); client_connected_cb := ControlCallback;
          is_serving := true |} ::
       (data_server <$> filter (λ p, bind p = None) data_port_range) ∧
     listening (after (start bind w)) =
       listening w ++
       port (proxy w) :: filter (λ p, bind p = None) data_port_range ∧
     trace (start bind w) =
       [Log (INFO, MsgStarting (bind_address (proxy w)) (port (proxy w)));
        StartServer (bind_address (proxy w)) (port (proxy w))] ++
       data_port_effects (bind_address (proxy w)) bind data_port_range ++
       [Log (INFO, MsgListening (port (proxy w)) FTP_DATA_PORT_START
                     FTP_DATA_PORT_END)] ∧
     (∀ p, p ∈ data_port_range →
        StartServer (bind_address (proxy w)) p ∈ trace (start bind w)) ∧
     (∀ p e, p ∈ data_port_range → bind p = Some e →
        Log (DEBUG, MsgCouldNotBind p e) ∈ trace (start bind w) ∧
        p ∉ filter (λ p, bind p = None) data_port_range)).
Proof.
  intros Hrun. split.
  - intros e Hbind. by apply start_control_fails.
  - intros Hbind Hos.
    destruct (start_control_binds bind w Hrun Hbind)
      as (ps & Hs & Hp & Hts & Hps & Hret & Hall & _).
    specialize (Hall Hos). destruct (Hret Hall) as [-> Htr].
    split_and!; try done.
    + unfold listening. rewrite Hs, filter_app, fmap_app.
      rewrite filter_cons_True by done. cbn [fmap list_fmap].
      by rewrite filter_serving_data, bound_port_data.
    + intros p Hp'. rewrite Htr. apply elem_of_app. right.
      apply elem_of_app. left. unfold data_port_effects.
      apply list_elem_of_bind. exists p. split; [by left|done].
    + intros p e Hp' Hb. split.
      * rewrite Htr. apply elem_of_app. right. apply elem_of_app. left.
        by apply data_port_effects_log.
      * intros [Hnone _]%list_elem_of_filter. congruence.
Qed.

Lemma start_bind_failures_witness :
  outcome (start busy_2050 fresh) = Returned tt ∧
  length (listening (after (start busy_2050 fresh))) = 101%nat ∧
  2050 ∉ listening (after (start busy_2050 fresh)).
Proof.
  destruct (start_bind_failures busy_2050 fresh eq_refl) as [_ H].
  destruct H as (Hout & _ & Hl & _).
  - reflexivity.
  - intros p e _. unfold busy_2050. destruct (decide (p = 2050)); [|done].
    by intros [= <-].
  - split; [exact Hout|]. rewrite Hl. split; [reflexivity|].
    refine (bool_decide_unpack _ _). vm_compute. exact I.
Defined.

Lemma filter_none {A} (P : A → Prop) `{∀ x, Decision (P x)} (l : list A) :
  (∀ x, x ∈ l → ¬ P x) → filter P l = [].
Proof.
  induction l as [|x l IH]; intros Hl; [done|].
  rewrite filter_cons_False by (apply Hl; by left).
  apply IH. intros y Hy. apply Hl. by right.
Qed.

(** C3.  The code does not keep this claim for a connection that arrives
    while [stop] is suspended.  A proxy is started and has one connection;
    [stop] is called, cancels that connection task and awaits it in
    [gather], with the listeners still open; a second client connects to
    the control listener meanwhile.  When [stop] returns, the proxy is not
    running, no listener is open, [_active_connections] is empty and the
    first task has ended by cancellation; but the task of the second
    connection was never cancelled ([stop] cancelled and gathered task 0
    only), has not finished, still holds its open client connection, and
    is no longer known to the proxy.  Resumed after [stop] has returned, it
    connects to the printer and forwards what the client sends. *)
Theorem stop_misses_late_client :
  let w := run late_client fresh in
  _running (proxy w) = false ∧
  listening w = [] ∧
  elements (_active_connections (proxy w)) = [] ∧
  (∃ h, tasks w !! 0%nat = Some h ∧ h_pc h = HDone (Raised CancelledError)) ∧
  (∃ h, in_flight w = [h] ∧ tasks w !! 1%nat = Some h ∧
        h_port h = 990 ∧ h_pc h = HConnecting ∧
        closed (client_writer h) = false) ∧
  trace (stop_during [Connects 0 [Arrive hello] []] [] []
           (run [Start all_free; Accept 0 [] []] fresh)) =
    [Log (INFO, MsgStopping); TaskCancel 0; Gather [0%nat];
     ServerClose 0; ServerWaitClosed 0] ++
    (ServerClose <$> seq 1 101) ++ (ServerWaitClosed <$> seq 1 101) ++
    [Log (INFO, MsgStopped)] ∧
  (∃ h p, tasks (run late_client_served fresh) !! 1%nat = Some h ∧
          h_pc h = HPiping p ∧
          h_actions h = [OpenConnection "192.168.1.50" 990 10; Splice] ∧
          sent (dst (task1 p)) = [hello]).
Proof.
  cbn zeta. split_and!.
  - by vm_compute.
  - by vm_compute.
  - by vm_compute.
  - eexists. split; by vm_compute.
  - eexists. split_and!; by vm_compute.
  - by vm_compute.
  - eexists _, _. split_and!; vm_compute; reflexivity.
Qed.


(** C9.  [stop] on a proxy that was never started returns normally: it
    cancels no task, gathers nothing and closes no server (its effects are
    its two log records), and the proxy is as it was, the running flag
    being clear. *)
Theorem stop_never_started ip addr :
  stop (init ip addr) =
  {| outcome := Returned tt; after := init ip addr;
     trace := [Log (INFO, MsgStopping); Log (INFO, MsgStopped)] |}.
Proof. reflexivity. Qed.

Lemma stop_config w :
  bind_address (proxy (after (stop w))) = bind_address (proxy w) ∧
  port (proxy (after (stop w))) = port (proxy w) ∧
  _running (proxy (after (stop w))) = false.
Proof. by rewrite stop_spec. Qed.

Lemma start_attempts_control bind w :
  _running (proxy w) = false →
  StartServer (bind_address (proxy w)) (port (proxy w)) ∈
    trace (start bind w).
Proof.
  intros Hrun. destruct (bind (port (proxy w))) as [e|] eqn:Ebind.
  - rewrite (start_control_fails bind w e) by done. right. by left.
  - unfold start. rewrite Hrun. cbn zeta.
    cbn [set_running proxy port bind_address]. rewrite Ebind.
    cbn [new_server].
    match goal with
    | |- context [bind_data_ports bind data_port_range ?w1 ?tr1] =>
        assert (Hpre : ∀ ports w2 tr2, ∃ tr',
                  trace (bind_data_ports bind ports w2 tr2) = tr2 ++ tr');
        [|destruct (Hpre data_port_range w1 tr1) as [tr' Htr];
          destruct (outcome (bind_data_ports bind data_port_range w1 tr1))]
    end.
    + induction ports as [|p ports IH]; intros w2 tr2.
      * exists []. simpl. by rewrite (right_id_L [] (++)).
      * cbn [bind_data_ports]. destruct (bind p) as [e|].
        -- destruct (isinstance_OSError e).
           ++ edestruct IH as [tr' ->]. eexists.
              by rewrite <- !(assoc_L (++)).
           ++ by eexists.
        -- cbn [new_server]. edestruct IH as [tr' ->]. eexists.
           by rewrite <- !(assoc_L (++)).
    + cbn [trace]. rewrite Htr. apply elem_of_app. left.
      apply elem_of_app. left. right. by left.
    + rewrite Htr. apply elem_of_app. left. right. by left.
Qed.

(** C10.  [start] sets [_running] before it binds the control port: when
    that bind raises, the exception leaves [start] and the flag stays set;
    any later [start] then returns at once without a bind attempt.  Only
    [stop] clears the flag, after which [start] tries to bind again. *)
Theorem start_failure_leaves_running bind w e :
  _running (proxy w) = false →
  bind (port (proxy w)) = Some e →
  outcome (start bind w) = Raised e ∧
  after (start bind w) = set_running true w ∧
  _running (proxy (after (start bind w))) = true ∧
  (∀ bind',
     start bind' (after (start bind w)) =
     {| outcome := Returned tt; after := after (start bind w);
        trace := [] |}) ∧
  _running (proxy (after (stop (after (start bind w))))) = false ∧
  (∀ bind',
     StartServer (bind_address (proxy w)) (port (proxy w)) ∈
       trace (start bind' (after (stop (after (start bind w)))))).
Proof.
  intros Hrun Hbind. rewrite (start_control_fails bind w e) by done.
  cbn [outcome after]. split_and!; try done.
  - by rewrite stop_spec.
  - intros bind'.
    destruct (stop_config (set_running true w)) as (Haddr & Hport & Hr).
    pose proof (start_attempts_control bind' _ Hr) as Hin.
    by rewrite Haddr, Hport in Hin.
Qed.

Lemma start_failure_leaves_running_witness :
  outcome (start control_busy fresh) = Raised OSError ∧
  _running (proxy (after (start control_busy fresh))) = true ∧
  listening (after (start control_busy fresh)) = [] ∧
  trace (start all_free (after (start control_busy fresh))) = [].
Proof.
  destruct (start_failure_leaves_running control_busy fresh OSError
              eq_refl eq_refl) as (Hout & Haft & Hrun & Hnoop & _).
  split_and!; [exact Hout|exact Hrun|by rewrite Haft|by rewrite Hnoop].
Defined.

Lemma filter_all_bound (bind : Z → option exn) (ports : list Z) :
  (∀ p, bind p = None) → filter (λ p, bind p = None) ports = ports.
Proof.
  intros Hall. induction ports as [|p ports IH]; [done|].
  rewrite filter_cons_True by done. by rewrite IH.
Qed.

Lemma data_port_effects_all_bound addr (bind : Z → option exn) ports :
  (∀ p, bind p = None) →
  data_port_effects addr bind ports = StartServer addr <$> ports.
Proof.
  intros Hall. unfold data_port_effects.
  induction ports as [|p ports IH]; [done|].
  cbn [mbind list_bind fmap list_fmap]. rewrite Hall. simpl. f_equal.
  apply IH.
Qed.

Lemma h_port_run ip evs h : h_port (run_handler ip evs h) = h_port h.
Proof.
  revert h. induction evs as [|ev evs IH]; intros h; [done|].
  simpl. rewrite IH.
  by destruct (handler_step_actions ip ev h) as (? & _ & _ & -> & _).
Qed.

(** C5.  On a new proxy whose ports are all free, [start] returns with one
    listener on the control port 990 and one on every port from 2000 to
    2100, bound in this order.  Whatever happened to the proxy before, a
    connection accepted on a serving listener starts a handler for the port
    that listener is bound to, which at once opens a connection to
    [printer_ip] on that same port with a timeout of 10 seconds; and every
    handler, at every moment, has that connect as its first and only
    connect, and has not spliced anything while it still awaits it. *)
Theorem start_listens_and_connects ip addr :
  (∀ bind, (∀ p, bind p = None) →
     outcome (start bind (init ip addr)) = Returned tt ∧
     listening (after (start bind (init ip addr))) = 990 :: seqZ 2000 101 ∧
     trace (start bind (init ip addr)) =
       [Log (INFO, MsgStarting addr 990); StartServer addr 990] ++
       (StartServer addr <$> seqZ 2000 101) ++
       [Log (INFO, MsgListening 990 2000 2100)]) ∧
  (∀ ops sid srv r ds,
     servers (run ops (init ip addr)) !! sid = Some srv →
     is_serving srv = true →
     ∃ h, tasks (accept sid r ds (run ops (init ip addr)))
            !! length (tasks (run ops (init ip addr))) = Some h ∧
          h_port h = bound_port srv ∧
          h_pc h = HConnecting ∧
          h_actions h = [OpenConnection ip (bound_port srv) 10]) ∧
  (∀ self_port r cw p evs,
     h_port (run_handler ip evs (_handle_connection ip self_port r cw p)) = p ∧
     connects_first ip
       (run_handler ip evs (_handle_connection ip self_port r cw p))) ∧
  (∀ ops tid h,
     tasks (run ops (init ip addr)) !! tid = Some h → connects_first ip h).
Proof.
  split_and!.
  - intros bind Hall.
    destruct (start_control_binds bind (init ip addr) eq_refl (Hall _))
      as (ps & Hs & Hp & Hts & Hps & Hret & Hos & _).
    assert (Hout : outcome (start bind (init ip addr)) = Returned tt).
    { apply Hos. intros p e _. by rewrite Hall. }
    destruct (Hret Hout) as [-> Htr].
    rewrite filter_all_bound in Hs by done.
    rewrite data_port_effects_all_bound in Htr by done.
    split_and!; [done| |done].
    unfold listening. rewrite Hs. cbn [init servers app].
    rewrite filter_cons_True by done. cbn [fmap list_fmap].
    by rewrite filter_serving_data, bound_port_data.
  - intros ops sid srv r ds Hs Hserving.
    pose proof (world_ok_run ip ops _ (world_ok_init ip addr)) as Hok.
    unfold accept. rewrite Hs, Hserving.
    cbn [tasks set_tasks set_active_connections].
    rewrite lookup_app_r by done. rewrite Nat.sub_diag. cbn [lookup list_lookup].
    eexists. split; [done|]. cbn [_handle_connection h_port h_pc h_actions].
    rewrite (ok_ip _ _ Hok). pose proof (ok_cb _ _ Hok sid srv Hs) as Hcb.
    destruct (client_connected_cb srv); by rewrite Hcb.
  - intros self_port r cw p evs. split.
    + by rewrite h_port_run.
    + apply connects_first_run, connects_first_init.
  - intros ops tid h Hh.
    pose proof (world_ok_run ip ops _ (world_ok_init ip addr)) as Hok.
    by destruct (ok_tasks _ _ Hok tid h Hh).
Qed.

Lemma start_listens_and_connects_witness :
  length (listening (after (start all_free fresh))) = 102%nat ∧
  ∃ h, tasks (accept 51 [Arrive hello] [] (run [Start all_free] fresh))
         !! 0%nat = Some h ∧
       h_actions h = [OpenConnection "192.168.1.50" 2050 10].
Proof.
  destruct (start_listens_and_connects "192.168.1.50" "0.0.0.0")
    as (Hstart & Haccept & _).
  split.
  - destruct (Hstart all_free) as (_ & Hl & _); [reflexivity|].
    unfold fresh. by rewrite Hl.
  - destruct (Haccept [Start all_free] 51%nat (data_server 2050)
                [Arrive hello] []) as (h & Hh & _ & _ & Hact).
    + vm_compute. reflexivity.
    + reflexivity.
    + exists h. split; [exact Hh|exact Hact].
Defined.






End ProxyClaims.

(** * More about [forward] and the byte pipe *)

Section ForwardExtras.

Lemma delivers_cleanly_tail d r : delivers_cleanly (d :: r) → delivers_cleanly r.
Proof. intros H e He. apply (H e). by right. Qed.

Lemma read_cleanly n r x r' :
  delivers_cleanly r → read n r = (x, r') →
  delivers_cleanly r' ∧ ∃ data, x = Returned data.
Proof.
  intros Hr. destruct r as [|[seg|e] rest]; simpl.
  - intros [= <- <-]. eauto.
  - destruct (_ <=? _); intros [= <- <-].
    + split; [by eapply delivers_cleanly_tail|eauto].
    + split; [|eauto]. intros e [?|He]%elem_of_cons; [done|].
      by apply (Hr e); right.
  - destruct (Hr e). by left.
Qed.

Lemma drain_cleanly w x w' :
  drains_cleanly w → drain w = (x, w') →
  drains_cleanly w' ∧ x = Returned tt.
Proof.
  unfold drains_cleanly, drain. intros Hw.
  destruct (drains w) as [|[e|] rest] eqn:E.
  - intros [= <- <-]. by rewrite E.
  - destruct (Hw e). by left.
  - intros [= <- <-]. split; [|done]. simpl. intros e He.
    apply (Hw e). by right.
Qed.

Lemma undisturbed_step t : undisturbed t → undisturbed (forward_step t).
Proof.
  intros (Hsrc & Hdst & Hc & Hlog & Hdone). unfold forward_step.
  destruct (pc t) as [| |r] eqn:Epc.
  - rewrite Hc.
    destruct (read 65536 (src t)) as [x src'] eqn:Eread.
    destruct (read_cleanly _ _ _ _ Hsrc Eread) as [Hsrc' [data ->]].
    destruct data as [|b data]; unfold undisturbed; simpl;
      split_and!; try done.
    + intros r [= <-]. split; [done|]. apply last_snoc.
  - rewrite Hc.
    destruct (drain (dst t)) as [x dst'] eqn:Edrain.
    destruct (drain_cleanly _ _ _ Hdst Edrain) as [Hdst' ->].
    unfold undisturbed; simpl. split_and!; done.
  - unfold undisturbed. rewrite Epc. split_and!; done.
Qed.

Lemma undisturbed_forward fuel t : undisturbed t → undisturbed (forward fuel t).
Proof.
  revert t. induction fuel as [|fuel IH]; intros t Ht; [done|].
  simpl. by apply IH, undisturbed_step.
Qed.

Lemma on_raise_logs_once e s d t : flog t = [] → logs_once (on_raise e s d t).
Proof.
  intros Hlog. unfold logs_once, on_raise.
  destruct (decide (e = CancelledError)); [|destruct (isinstance_Exception e)];
    simpl; rewrite Hlog; simpl; split_and!; try done; lia.
Qed.

Lemma logs_once_step t : logs_once t → logs_once (forward_step t).
Proof.
  intros (Hrun & Hlen & Hret). unfold forward_step.
  destruct (pc t) as [| |r] eqn:Epc.
  - assert (Hlog : flog t = []) by (apply Hrun; unfold done; by rewrite Epc).
    destruct (must_cancel t); [by apply on_raise_logs_once|].
    destruct (read 65536 (src t)) as [[[|b data]|e] src'];
      [| |by apply on_raise_logs_once];
      unfold logs_once, done; simpl; rewrite Hlog; split_and!; try done;
      simpl; lia.
  - assert (Hlog : flog t = []) by (apply Hrun; unfold done; by rewrite Epc).
    destruct (must_cancel t); [by apply on_raise_logs_once|].
    destruct (drain (dst t)) as [[[]|e] dst'];
      [|by apply on_raise_logs_once];
      unfold logs_once, done; simpl; rewrite Hlog; split_and!; try done;
      simpl; lia.
  - unfold logs_once, done. rewrite Epc. split_and!; done.
Qed.

Lemma logs_once_forward fuel t : logs_once t → logs_once (forward fuel t).
Proof.
  revert t. induction fuel as [|fuel IH]; intros t Ht; [done|].
  simpl. by apply IH, logs_once_step.
Qed.

Lemma ends_well_forward fuel t : ends_well t → ends_well (forward fuel t).
Proof.
  revert t. induction fuel as [|fuel IH]; intros t Ht; [done|].
  simpl. by apply IH, forward_step_ends_well.
Qed.

(** X1.  On a source whose reads never raise and a destination whose drains
    never raise, [forward] run long enough returns normally, has written
    exactly the bytes the source delivers up to EOF, and has logged
    nothing. *)
Theorem forward_complete_transfer direction r w fuel :
  delivers_cleanly r → drains_cleanly w →
  (enough (create_task direction r w) ≤ fuel)%nat →
  pc (forward fuel (create_task direction r w)) = FDone (Returned tt) ∧
  concat (sent (dst (forward fuel (create_task direction r w)))) =
    concat (sent w) ++ deliverable r ∧
  flog (forward fuel (create_task direction r w)) = [].
Proof.
  intros Hr Hw Hfuel.
  assert (Hu : undisturbed (forward fuel (create_task direction r w))).
  { apply undisturbed_forward. unfold undisturbed. simpl.
    split_and!; done. }
  pose proof (forward_terminates fuel _ Hfuel) as Hdone.
  pose proof (forwarding_byte_exact r w _
                (forwarding_forward _ _ fuel _
                   (forwarding_create direction r w)))
    as (_ & Hcat & _ & _ & Heof).
  destruct Hu as (_ & _ & _ & Hlog & Hend).
  unfold done in Hdone.
  destruct (pc (forward fuel (create_task direction r w))) as [| |x] eqn:Epc;
    [done|done|].
  destruct (Hend x eq_refl) as [-> Hlast].
  split_and!; [done| |done]. by rewrite Hcat, (Heof Hlast).
Qed.

Lemma forward_complete_transfer_witness :
  concat (sent (dst (forward 13
            (create_task "client->printer" [Arrive hello]
               {| sent := []; drains := []; closed := false |})))) = hello.
Proof.
  refine (proj1 (proj2 (forward_complete_transfer "client->printer"
                          [Arrive hello]
                          {| sent := []; drains := []; closed := false |}
                          13 _ _ _))).
  - intros e He. apply elem_of_cons in He as [He|He]; [done|].
    by apply elem_of_nil in He.
  - intros e He. by apply elem_of_nil in He.
  - vm_compute. lia.
Defined.

(** X2.  [forward] always finishes, whatever its source and destination do:
    after [2 * reads_left r + 1] resumptions at most (each read that does
    not end the loop takes at least one byte off the source) it has
    returned or was cancelled, and it has logged at most one record, and
    one only when it returned. *)
Theorem forward_always_finishes direction r w fuel :
  (2 * reads_left r + 1 ≤ fuel)%nat →
  (pc (forward fuel (create_task direction r w)) = FDone (Returned tt) ∨
   pc (forward fuel (create_task direction r w))
     = FDone (Raised CancelledError)) ∧
  (length (flog (forward fuel (create_task direction r w))) ≤ 1)%nat ∧
  (flog (forward fuel (create_task direction r w)) ≠ [] →
   pc (forward fuel (create_task direction r w)) = FDone (Returned tt)).
Proof.
  intros Hfuel.
  pose proof (forward_terminates fuel (create_task direction r w) Hfuel)
    as Hdone.
  pose proof (ends_well_forward fuel _ (create_task_ends_well direction r w))
    as Hend.
  assert (Hlog : logs_once (forward fuel (create_task direction r w))).
  { apply logs_once_forward. unfold logs_once, done. simpl.
    split_and!; try done. lia. }
  destruct Hlog as (_ & Hlen & Hret).
  split_and!; [|done|done].
  unfold done in Hdone.
  destruct (pc (forward fuel (create_task direction r w)))
    as [| |[[]|e]] eqn:Epc; [done|done|by left|].
  right. by rewrite (Hend e Epc).
Qed.

Lemma forward_always_finishes_witness :
  pc (forward 15 (create_task "printer->client"
                    [Arrive hello; Fail ConnectionResetError]
                    {| sent := []; drains := []; closed := false |}))
    = FDone (Returned tt).
Proof.
  destruct (forward_always_finishes "printer->client"
              [Arrive hello; Fail ConnectionResetError]
              {| sent := []; drains := []; closed := false |} 15)
    as ([H|H] & _); [vm_compute; lia|exact H|].
  vm_compute in H. discriminate H.
Defined.

Lemma on_raise_src e s d t : src (on_raise e s d t) = s.
Proof. unfold on_raise. repeat case_match; done. Qed.

(** A finished or cancelled task reads and writes nothing more. *)
Lemma forward_step_frozen t :
  cancelled_or_done t →
  src (forward_step t) = src t ∧ dst (forward_step t) = dst t ∧
  got (forward_step t) = got t.
Proof.
  intros [Hd|Hc]; [by rewrite forward_step_done|].
  unfold forward_step. destruct (pc t); rewrite ?Hc; [| |done];
    by rewrite on_raise_src, on_raise_dst, on_raise_got.
Qed.

Lemma cancel_frozen t :
  src (cancel t) = src t ∧ dst (cancel t) = dst t ∧ got (cancel t) = got t.
Proof. unfold cancel. by destruct (done t). Qed.

Lemma forward_step_stays_cancelled_or_done t :
  cancelled_or_done t → cancelled_or_done (forward_step t).
Proof. intros H. left. by apply forward_step_cancelled_or_done. Qed.

Lemma winding_down_step ev p :
  winding_down p →
  winding_down (pipe_step ev p) ∧
  dst (task1 (pipe_step ev p)) = dst (task1 p) ∧
  dst (task2 (pipe_step ev p)) = dst (task2 p) ∧
  got (task1 (pipe_step ev p)) = got (task1 p) ∧
  got (task2 (pipe_step ev p)) = got (task2 p).
Proof.
  intros (Hat & H1 & H2).
  assert (Hget : ∀ d, cancelled_or_done (get d p)) by (by intros []).
  assert (Hset : ∀ d t c,
    cancelled_or_done t → dst t = dst (get d p) → got t = got (get d p) →
    c ≠ PWait →
    winding_down (goto c (set d t p)) ∧
    dst (task1 (goto c (set d t p))) = dst (task1 p) ∧
    dst (task2 (goto c (set d t p))) = dst (task2 p) ∧
    got (task1 (goto c (set d t p))) = got (task1 p) ∧
    got (task2 (goto c (set d t p))) = got (task2 p)).
  { intros [] t c Ht Hdst Hgot Hc; unfold winding_down; simpl in *;
      split_and!; done. }
  assert (Hsame : ∀ p', p' = p →
    winding_down p' ∧ dst (task1 p') = dst (task1 p) ∧
    dst (task2 p') = dst (task2 p) ∧ got (task1 p') = got (task1 p) ∧
    got (task2 p') = got (task2 p)).
  { intros p' ->. unfold winding_down. split_and!; done. }
  assert (Hgoto : ∀ c, c ≠ PWait →
    winding_down (goto c p) ∧ dst (task1 (goto c p)) = dst (task1 p) ∧
    dst (task2 (goto c p)) = dst (task2 p) ∧
    got (task1 (goto c p)) = got (task1 p) ∧
    got (task2 (goto c p)) = got (task2 p)).
  { intros c Hc. unfold winding_down. simpl. split_and!; done. }
  assert (Hnext : ∀ l,
    winding_down (cancel_next l p) ∧
    dst (task1 (cancel_next l p)) = dst (task1 p) ∧
    dst (task2 (cancel_next l p)) = dst (task2 p) ∧
    got (task1 (cancel_next l p)) = got (task1 p) ∧
    got (task2 (cancel_next l p)) = got (task2 p)).
  { intros [|d l]; [by apply Hgoto|]. unfold cancel_next.
    destruct (cancel_frozen (get d p)) as (_ & ? & ?).
    apply Hset; [apply cancel_cancelled_or_done|done|done|done]. }
  assert (Hfwd : ∀ d,
    winding_down (set d (forward_step (get d p)) p) ∧
    dst (task1 (set d (forward_step (get d p)) p)) = dst (task1 p) ∧
    dst (task2 (set d (forward_step (get d p)) p)) = dst (task2 p) ∧
    got (task1 (set d (forward_step (get d p)) p)) = got (task1 p) ∧
    got (task2 (set d (forward_step (get d p)) p)) = got (task2 p)).
  { intros d. destruct (forward_step_frozen _ (Hget d)) as (_ & ? & ?).
    pose proof (forward_step_stays_cancelled_or_done _ (Hget d)).
    destruct d; unfold winding_down; simpl in *; split_and!; done. }
  assert (Hcan : ∀ d,
    winding_down (set d (cancel (get d p)) p) ∧
    dst (task1 (set d (cancel (get d p)) p)) = dst (task1 p) ∧
    dst (task2 (set d (cancel (get d p)) p)) = dst (task2 p) ∧
    got (task1 (set d (cancel (get d p)) p)) = got (task1 p) ∧
    got (task2 (set d (cancel (get d p)) p)) = got (task2 p)).
  { intros d. destruct (cancel_frozen (get d p)) as (_ & ? & ?).
    pose proof (cancel_cancelled_or_done (get d p)).
    destruct d; unfold winding_down; simpl in *; split_and!; done. }
  unfold pipe_step.
  destruct (at_pc p) as [|[|d rest]| |e] eqn:Eat; [done| | | |].
  - by apply Hgoto.
  - destruct ev as [d'| |]; [apply Hfwd| |apply Hcan].
    destruct (pc (get d p)) as [| |[[]|e]];
      [by apply Hsame|by apply Hsame|apply Hnext|].
    destruct (decide _); [apply Hnext|by apply Hgoto].
  - by apply Hsame.
  - by apply Hsame.
Qed.

Lemma winding_down_run evs p :
  winding_down p →
  winding_down (run_pipe evs p) ∧
  dst (task1 (run_pipe evs p)) = dst (task1 p) ∧
  dst (task2 (run_pipe evs p)) = dst (task2 p) ∧
  got (task1 (run_pipe evs p)) = got (task1 p) ∧
  got (task2 (run_pipe evs p)) = got (task2 p).
Proof.
  revert p. induction evs as [|ev evs IH]; intros p Hp; [done|].
  change (run_pipe (ev :: evs) p) with (run_pipe evs (pipe_step ev p)).
  destruct (winding_down_step ev p Hp) as (Hp' & E1 & E2 & E3 & E4).
  destruct (IH _ Hp') as (Hw & F1 & F2 & F3 & F4).
  rewrite F1, F2, F3, F4. split_and!; done.
Qed.

(** A pipe that has left its wait is winding down. *)
Lemma left_wait_winding_down p :
  pipe_ok p → one_pending p → at_pc p ≠ PWait → winding_down p.
Proof.
  intros (_ & _ & Hat) Hone Hne. unfold one_pending in Hone.
  unfold winding_down. split; [done|].
  destruct (at_pc p) as [|l| |e]; [done| | |].
  - destruct Hat as [(d & rest & -> & Hd) Hrest].
    assert (rest = []) as -> by (destruct rest; [done|simpl in Hone; lia]).
    assert (Hother : ∀ d', d' ≠ d → cancelled_or_done (get d' p)).
    { intros d' Hd'. left. apply Hrest.
      intros [?|Hnil]%elem_of_cons; [done|by apply elem_of_nil in Hnil]. }
    destruct d; simpl in *; split; try done;
      [apply (Hother Task2)|apply (Hother Task1)]; done.
  - destruct Hat as [Hd1 Hd2]. split; by left.
  - by destruct Hat as (_ & ? & ?).
Qed.

(** X3.  Once the byte pipe has left its wait (a direction has finished, or
    the pipe was cancelled), it never copies again: however the event loop
    goes on, no further chunk is read or written in either direction, even
    when the other peer still has bytes to deliver, and the pipe does not
    go back to waiting. *)
Theorem pipe_silent_after_wait cr cw ur uw evs evs' :
  at_pc (run_pipe evs (_forward_bidirectional cr cw ur uw)) ≠ PWait →
  at_pc (run_pipe evs' (run_pipe evs (_forward_bidirectional cr cw ur uw)))
    ≠ PWait ∧
  dst (task1 (run_pipe evs'
                (run_pipe evs (_forward_bidirectional cr cw ur uw)))) =
    dst (task1 (run_pipe evs (_forward_bidirectional cr cw ur uw))) ∧
  dst (task2 (run_pipe evs'
                (run_pipe evs (_forward_bidirectional cr cw ur uw)))) =
    dst (task2 (run_pipe evs (_forward_bidirectional cr cw ur uw))) ∧
  got (task1 (run_pipe evs'
                (run_pipe evs (_forward_bidirectional cr cw ur uw)))) =
    got (task1 (run_pipe evs (_forward_bidirectional cr cw ur uw))) ∧
  got (task2 (run_pipe evs'
                (run_pipe evs (_forward_bidirectional cr cw ur uw)))) =
    got (task2 (run_pipe evs (_forward_bidirectional cr cw ur uw))).
Proof.
  intros Hne.
  assert (Hw : winding_down
                 (run_pipe evs (_forward_bidirectional cr cw ur uw))).
  { apply left_wait_winding_down; [|
      apply one_pending_run; unfold one_pending; done|done].
    apply pipe_ok_run, pipe_ok_init. }
  destruct (winding_down_run evs' _ Hw) as ((Hat & _) & H1 & H2 & H3 & H4).
  split_and!; done.
Qed.

Lemma pipe_silent_after_wait_witness :
  sent (dst (task2 (run_pipe [Resume Task2; Resume Task2; Wake]
     (run_pipe [Resume Task1; Wake]
        (_forward_bidirectional []
           {| sent := []; drains := []; closed := false |} [Arrive hello]
           {| sent := []; drains := []; closed := false |}))))) = [].
Proof.
  destruct (pipe_silent_after_wait []
              {| sent := []; drains := []; closed := false |} [Arrive hello]
              {| sent := []; drains := []; closed := false |}
              [Resume Task1; Wake] [Resume Task2; Resume Task2; Wake])
    as (_ & _ & H2 & _); [by vm_compute|].
  by rewrite H2.
Defined.

End ForwardExtras.

(** * More about the handler and the proxy *)

Section ProxyExtras.

















Lemma all_done_registered A w :
  each (λ _ h, hdone h = true) w →
  all_registered (set_active_connections A w).
Proof.
  intros Hdone tid h Hh Hd. cbn [tasks set_active_connections] in Hh.
  rewrite (Hdone tid h Hh) in Hd. done.
Qed.







Lemma bind_data_ports_sublist bind ports w tr :
  ∃ ps, servers (after (bind_data_ports bind ports w tr)) =
          servers w ++ (data_server <$> ps) ∧
        ps `sublist_of` ports.
Proof.
  revert w tr. induction ports as [|p rest IH]; intros w tr.
  { exists []. simpl. by rewrite (right_id_L [] (++)). }
  cbn [bind_data_ports]. destruct (bind p) as [e|].
  - destruct (isinstance_OSError e).
    + destruct (IH w (tr ++ [StartServer (bind_address (proxy w)) p]
                         ++ [Log (DEBUG, MsgCouldNotBind p e)]))
        as (ps & Hs & Hsub).
      rewrite (assoc_L (++)) in Hs.
      exists ps. split; [done|by apply sublist_cons].
    + exists []. simpl. rewrite (right_id_L [] (++)).
      split; [done|apply sublist_nil_l].
  - cbn [new_server].
    match goal with
    | |- context [bind_data_ports bind rest ?w1 ?tr1] =>
        destruct (IH w1 tr1) as (ps & Hs & Hsub)
    end.
    exists (p :: ps). split; [|by apply sublist_skip].
    rewrite Hs. simpl. by rewrite <- (assoc_L (++)).
Qed.

(** The listeners after a [start] that bound the control port, on a proxy
    without listeners. *)
Lemma start_listening bind w :
  _running (proxy w) = false → bind (port (proxy w)) = None →
  listening w = [] →
  ∃ ps, ps `sublist_of` data_port_range ∧
        listening (after (start bind w)) = port (proxy w) :: ps.
Proof.
  intros Hrun Hbind Hnone.
  assert (Hs : ∃ ps, ps `sublist_of` data_port_range ∧
    servers (after (start bind w)) =
      servers w ++
      {| bound_port := port (proxy w); client_connected_cb := ControlCallback;
         is_serving := true |} :: (data_server <$> ps)).
  { unfold start. rewrite Hrun. cbn zeta.
    cbn [set_running proxy port bind_address]. rewrite Hbind.
    cbn [new_server].
    match goal with
    | |- context [bind_data_ports bind data_port_range ?w1 ?tr1] =>
        destruct (bind_data_ports_sublist bind data_port_range w1 tr1)
          as (ps & Hs & Hsub);
        destruct (outcome (bind_data_ports bind data_port_range w1 tr1))
    end; exists ps; (split; [done|]); cbn [after];
      rewrite Hs; cbn [servers set_control_server set_servers];
      by rewrite <- (assoc_L (++)). }
  destruct Hs as (ps & Hsub & Hs). exists ps. split; [done|].
  unfold listening in *. rewrite Hs, filter_app, fmap_app, Hnone.
  rewrite filter_cons_True by done. cbn [fmap list_fmap app].
  by rewrite filter_serving_data, bound_port_data.
Qed.

Lemma data_port_range_ports p : p ∈ data_port_range → 2000 ≤ p ≤ 2100.
Proof.
  unfold data_port_range, FTP_DATA_PORT_START, FTP_DATA_PORT_END.
  rewrite elem_of_seqZ. lia.
Qed.

(** No listener is open when [stop] has returned, whatever happened
    during it. *)
Lemma stop_during_listening ip g c d w :
  world_ok ip w → listening (after (stop_during g c d w)) = [].
Proof.
  intros Hok. destruct (stop_during_shell g c d w) as (A & T & ->).
  rewrite stop_spec. unfold listening.
  cbn [after servers set_active_connections set_tasks].
  rewrite (filter_none _ (closed_servers w)); [done|].
  intros srv [sid Hs]%list_elem_of_lookup.
  by rewrite (stop_no_listeners ip w sid srv Hok Hs).
Qed.

Lemma listeners_ok_exec ip w o :
  world_ok ip w → listeners_ok w → listeners_ok (exec w o).
Proof.
  intros Hok Hl. destruct o as [bind| |sid r ds|tid ev|g c d]; simpl.
  - destruct (_running (proxy w)) eqn:Erun.
    { by rewrite start_noop. }
    destruct (bind (port (proxy w))) as [e|] eqn:Ebind.
    { by rewrite (start_control_fails bind w e). }
    assert (Hnone : listening w = []).
    { unfold listening. rewrite (filter_none _ (servers w)); [done|].
      intros srv [sid Hs]%list_elem_of_lookup.
      by rewrite (ok_idle _ _ Hok Erun sid srv Hs). }
    destruct (start_listening bind w Erun Ebind Hnone) as (ps & Hsub & Hlist).
    unfold listeners_ok. rewrite Hlist, (ok_port _ _ Hok).
    assert (Hps : ∀ p, p ∈ ps → 2000 ≤ p ≤ 2100).
    { intros p Hp. apply data_port_range_ports.
      by eapply elem_of_sublist. }
    split.
    + apply NoDup_cons. split.
      * intros Hin. apply Hps in Hin. unfold FTP_PORT in Hin. lia.
      * eapply sublist_NoDup; [|done]. apply NoDup_seqZ.
    + intros p [->|Hp]%elem_of_cons; [by left|right; by apply Hps].
  - unfold listeners_ok. rewrite stop_spec. unfold listening. cbn [after servers].
    rewrite (filter_none _ (closed_servers w)).
    + split; [apply NoDup_nil_2|]. intros p Hp. by apply elem_of_nil in Hp.
    + intros srv [sid Hs]%list_elem_of_lookup.
      by rewrite (stop_no_listeners ip w sid srv Hok Hs).
  - unfold accept. destruct (servers w !! sid) as [srv|]; [|done].
    by destruct (is_serving srv).
  - unfold resume. destruct (tasks w !! tid) as [h|]; [|done].
    destruct (hdone h); [done|]. by destruct (hdone (handler_step _ ev h)).
  - unfold listeners_ok. rewrite (stop_during_listening ip) by done.
    split; [apply NoDup_nil_2|]. intros p Hp. by apply elem_of_nil in Hp.
Qed.

Lemma listeners_ok_run ip ops w :
  world_ok ip w → listeners_ok w → listeners_ok (run ops w).
Proof.
  revert w. induction ops as [|o ops IH]; intros w Hok Hl; [done|].
  simpl. apply IH; [by apply world_ok_exec|by eapply listeners_ok_exec].
Qed.

(** X6.  After any sequence of [start] and [stop] calls, accepted
    connections and progress of their tasks, the proxy never has two open
    listeners on one port, listens on no port other than 990 and 2000 to
    2100, and so has at most 102 open listeners. *)
Theorem listeners_distinct_and_in_range ip addr ops :
  NoDup (listening (run ops (init ip addr))) ∧
  (∀ p, p ∈ listening (run ops (init ip addr)) →
        p = 990 ∨ 2000 ≤ p ≤ 2100) ∧
  (length (listening (run ops (init ip addr))) ≤ 102)%nat.
Proof.
  assert (Hl : listeners_ok (run ops (init ip addr))).
  { apply (listeners_ok_run ip); [apply world_ok_init|].
    split; [apply NoDup_nil_2|]. intros p Hp. by apply elem_of_nil in Hp. }
  destruct Hl as [Hnd Hports]. split_and!; [done|done|].
  change 102%nat with (length (990 :: seqZ 2000 101)).
  apply submseteq_length, NoDup_submseteq; [done|].
  intros p Hp. destruct (Hports p Hp) as [->|Hr]; [by left|].
  right. apply elem_of_seqZ. lia.
Qed.

(** X7.  When the control port binds and a data-port bind raises something
    that is not an [OSError], [start] does not skip the port: the exception
    leaves [start], raised by a port of the range, with the running flag
    set and the control listener open; a later [start] then returns at once
    and binds nothing, so the listeners stay as they are until [stop]. *)
Theorem start_aborted_midway bind w e :
  _running (proxy w) = false →
  bind (port (proxy w)) = None →
  outcome (start bind w) = Raised e →
  isinstance_OSError e = false ∧
  (∃ p, p ∈ data_port_range ∧ bind p = Some e) ∧
  _running (proxy (after (start bind w))) = true ∧
  _control_server (proxy (after (start bind w))) = Some (length (servers w)) ∧
  port (proxy w) ∈ listening (after (start bind w)) ∧
  (∀ bind',
     start bind' (after (start bind w)) =
     {| outcome := Returned tt; after := after (start bind w);
        trace := [] |}).
Proof.
  intros Hrun Hbind Hout.
  destruct (start_control_binds bind w Hrun Hbind)
    as (ps & Hs & Hp & _ & _ & _ & _ & Hraise).
  destruct (Hraise e Hout) as [Hos Hport].
  split_and!; [done|done|by rewrite Hp|by rewrite Hp| |].
  - unfold listening. rewrite Hs, filter_app, fmap_app.
    apply elem_of_app. right. rewrite filter_cons_True by done. by left.
  - intros bind'. apply start_noop. by rewrite Hp.
Qed.

Lemma start_aborted_midway_witness :
  outcome (start broken_2050 fresh) = Raised RuntimeError ∧
  length (listening (after (start broken_2050 fresh))) = 51%nat ∧
  990 ∈ listening (after (start broken_2050 fresh)).
Proof.
  split; [reflexivity|]. split; [reflexivity|].
  exact (proj1 (proj2 (proj2 (proj2 (proj2
           (start_aborted_midway broken_2050 fresh RuntimeError
              eq_refl eq_refl eq_refl)))))).
Defined.





End ProxyExtras.

(** * The command line front end *)

Section CliExtras.

Lemma kind_of_tools camera_type k :
  kind_of camera_type = Some k →
  camera_type = match k with
                | Chamber => "chamber"%string
                | Rtsp => "rtsp"%string
                end.
Proof. unfold kind_of. repeat case_decide; by intros [= <-]. Qed.

(** What [check_dependencies] reports as missing. *)
Lemma check_dependencies_missing which camera_type tool :
  tool ∈ snd (check_dependencies which camera_type) ↔
  which tool = false ∧ ∃ k, kind_of camera_type = Some k ∧ tool ∈ tools k.
Proof.
  unfold check_dependencies, kind_of.
  destruct (decide (camera_type = "rtsp"%string)) as [->|Hr].
  - simpl.
    destruct (which "ffmpeg"%string) eqn:Ef,
             (which "mediamtx"%string) eqn:Em; simpl; split.
    all: try (intros Hin; repeat (apply elem_of_cons in Hin as [->|Hin]);
              try (by apply elem_of_nil in Hin);
              (split; [done|]); exists Rtsp; (split; [done|]); simpl;
              first [by left|by right; left]).
    all: intros [Hw (k & [= <-] & Hin)]; simpl in Hin;
      repeat (apply elem_of_cons in Hin as [->|Hin]);
      try (by apply elem_of_nil in Hin); try congruence;
      first [by left|by right; left].
  - destruct (decide (camera_type = "chamber"%string)) as [->|Hc].
    + simpl. destruct (which "openssl"%string) eqn:Eo; simpl; split.
      all: try (intros Hin; repeat (apply elem_of_cons in Hin as [->|Hin]);
                try (by apply elem_of_nil in Hin);
                (split; [done|]); exists Chamber; (split; [done|]); simpl;
                first [by left|by right; left]).
      all: intros [Hw (k & [= <-] & Hin)]; simpl in Hin;
        repeat (apply elem_of_cons in Hin as [->|Hin]);
        try (by apply elem_of_nil in Hin); try congruence;
        first [by left|by right; left].
    + rewrite bool_decide_eq_false_2 by done. simpl.
      split; [by intros ?%elem_of_nil|]. by intros [_ (k & [=] & _)].
Qed.

Lemma check_dependencies_satisfied which camera_type :
  fst (check_dependencies which camera_type) = true ↔
  snd (check_dependencies which camera_type) = [].
Proof.
  unfold check_dependencies. cbn [fst snd].
  rewrite Nat.eqb_eq. apply length_zero_iff_nil.
Qed.

(** X8.  [check_dependencies] reports a tool as missing only when
    [shutil.which] does not find it, never twice, and reports success
    exactly when nothing is missing.  The RTSP camera needs ffmpeg and
    mediamtx, the chamber camera needs openssl, and any other camera type
    needs nothing: for it the check succeeds whatever is installed. *)
Theorem check_dependencies_sound which camera_type :
  (fst (check_dependencies which camera_type) = true ↔
   snd (check_dependencies which camera_type) = []) ∧
  (∀ tool, tool ∈ snd (check_dependencies which camera_type) ↔
     which tool = false ∧
     ∃ k, kind_of camera_type = Some k ∧ tool ∈ tools k) ∧
  NoDup (snd (check_dependencies which camera_type)) ∧
  (kind_of camera_type = None →
   check_dependencies which camera_type = (true, [])).
Proof.
  split_and!.
  - apply check_dependencies_satisfied.
  - apply check_dependencies_missing.
  - unfold check_dependencies. cbn [snd].
    destruct (decide (camera_type = "rtsp"%string)) as [->|?];
      destruct (which "ffmpeg"%string), (which "mediamtx"%string),
               (bool_decide (_ = "chamber"%string)), (which "openssl"%string);
      simpl; refine (bool_decide_unpack _ _); vm_compute; exact I.
  - unfold check_dependencies, kind_of.
    destruct (decide (camera_type = "chamber"%string)); [done|].
    destruct (decide (camera_type = "rtsp"%string)); [done|].
    by rewrite bool_decide_eq_false_2.
Qed.

Lemma try_body_kind env ip code bind camera_type k :
  kind_of camera_type = Some k →
  try_body env ip code bind camera_type = start_proxy env k ip code bind.
Proof. unfold kind_of, try_body. repeat case_decide; by intros [= <-]. Qed.

Lemma try_body_none env ip code bind camera_type :
  kind_of camera_type = None →
  try_body env ip code bind camera_type =
  wait_for_signal env {| chamber_proxy := false; rtsp_proxy := false |} [].
Proof. unfold kind_of, try_body. repeat case_decide; by intros [=]. Qed.

(** What [run_proxy] does to the camera proxies. *)
Lemma run_proxy_proxy_effects env ip code bind camera_type :
  proxy_effects (snd (run_proxy env ip code bind camera_type)) =
    match handler_raises env SIGINT, handler_raises env SIGTERM,
          kind_of camera_type with
    | None, None, Some k =>
        [Construct k ip code bind; ProxyStart k; ProxyStop k]
    | _, _, _ => []
    end.
Proof.
  unfold run_proxy, add_signal_handlers.
  destruct (handler_raises env SIGINT) as [e1|]; [done|].
  destruct (handler_raises env SIGTERM) as [e2|]; [done|].
  destruct (kind_of camera_type) as [k|] eqn:Ek.
  - rewrite (try_body_kind _ _ _ _ _ _ Ek).
    unfold start_proxy, wait_for_signal, finally_block, banner.
    destruct k.
    + destruct (start_raises env Chamber), (wait_raises env),
        (stop_raises env Chamber), (in_docker env); reflexivity.
    + destruct (start_raises env Rtsp), (wait_raises env),
        (stop_raises env Rtsp), (in_docker env); reflexivity.
  - rewrite (try_body_none _ _ _ _ _ Ek).
    unfold wait_for_signal, finally_block.
    destruct (wait_raises env); reflexivity.
Qed.

(** X9.  [run_proxy] stops what it constructed, on every path: when the
    signal handlers are installed and the camera type is "chamber" or
    "rtsp", the matching proxy is constructed, started and stopped, each
    exactly once and in this order, also when [start] raises, when the
    wait is cancelled and when [stop] raises.  For any other camera type,
    and when installing a handler raises, no proxy is constructed, started
    or stopped.  The two signal handlers are installed before anything
    else is done. *)
Theorem run_proxy_stops_what_it_constructs env ip code bind camera_type :
  proxy_effects (snd (run_proxy env ip code bind camera_type)) =
    match handler_raises env SIGINT, handler_raises env SIGTERM,
          kind_of camera_type with
    | None, None, Some k =>
        [Construct k ip code bind; ProxyStart k; ProxyStop k]
    | _, _, _ => []
    end ∧
  (handlers_install env →
   take 2 (snd (run_proxy env ip code bind camera_type)) =
     [AddSignalHandler SIGINT; AddSignalHandler SIGTERM]).
Proof.
  split; [apply run_proxy_proxy_effects|].
  intros [H1 H2]. unfold run_proxy, add_signal_handlers. rewrite H1, H2.
  by destruct (finally_block env _) as [r tr'].
Qed.

(** X10.  With the signal handlers installed, [run_proxy] ends the way its
    [finally] block dictates: an exception of [stop] wins over one of
    [start], which wins over one of the wait, and it returns normally only
    when none of them raised.  For a camera type that is neither "chamber"
    nor "rtsp" it only waits for the signal.  Its last effect is the
    "Shutdown complete" record unless [stop] raised, and it prints the
    banner exactly when [start] succeeded. *)
Theorem run_proxy_outcome env ip code bind camera_type :
  handlers_install env →
  fst (run_proxy env ip code bind camera_type) =
    match kind_of camera_type with
    | Some k =>
        match stop_raises env k, start_raises env k, wait_raises env with
        | Some e, _, _ => Raised e
        | None, Some e, _ => Raised e
        | None, None, Some e => Raised e
        | None, None, None => Returned tt
        end
    | None =>
        match wait_raises env with
        | Some e => Raised e
        | None => Returned tt
        end
    end ∧
  last (snd (run_proxy env ip code bind camera_type)) =
    Some match kind_of camera_type with
         | Some k =>
             match stop_raises env k with
             | Some _ => ProxyStop k
             | None => LogInfo ShutdownComplete
             end
         | None => LogInfo ShutdownComplete
         end ∧
  echoes (snd (run_proxy env ip code bind camera_type)) =
    match kind_of camera_type with
    | Some k =>
        match start_raises env k with
        | Some _ => []
        | None => banner k ip bind (in_docker env)
        end
    | None => []
    end.
Proof.
  intros [H1 H2]. unfold run_proxy, add_signal_handlers. rewrite H1, H2.
  destruct (kind_of camera_type) as [k|] eqn:Ek.
  - rewrite (try_body_kind _ _ _ _ _ _ Ek).
    unfold start_proxy, wait_for_signal, finally_block, banner.
    destruct k.
    + destruct (start_raises env Chamber), (wait_raises env),
        (stop_raises env Chamber), (in_docker env);
        split_and!; reflexivity.
    + destruct (start_raises env Rtsp), (wait_raises env),
        (stop_raises env Rtsp), (in_docker env);
        split_and!; reflexivity.
  - rewrite (try_body_none _ _ _ _ _ Ek).
    unfold wait_for_signal, finally_block.
    destruct (wait_raises env); split_and!; reflexivity.
Qed.

Lemma run_proxy_outcome_witness :
  fst (run_proxy start_fails "192.168.1.50" "12345678" "0.0.0.0" "chamber")
    = Raised OSError ∧
  last (snd (run_proxy start_fails "192.168.1.50" "12345678" "0.0.0.0"
               "chamber"))
    = Some (LogInfo ShutdownComplete).
Proof.
  destruct (run_proxy_outcome start_fails "192.168.1.50" "12345678"
              "0.0.0.0" "chamber") as (Hout & Hlast & _).
  - split; reflexivity.
  - split; [exact Hout|exact Hlast].
Defined.

Lemma proxy_effects_hints missing : proxy_effects (missing ≫= hints) = [].
Proof.
  unfold proxy_effects. induction missing as [|dep missing IH]; [done|].
  cbn [mbind list_bind]. rewrite filter_app.
  change (filter (λ e, is_lifecycle e = true) (missing ≫= hints))
    with (filter (λ e, is_lifecycle e = true) (mbind hints missing)) in IH.
  rewrite IH. unfold hints. repeat case_decide; reflexivity.
Qed.

(** What [main] does to the camera proxies. *)
Lemma main_proxy_effects env ip code bind verbose :
  proxy_effects (snd (main env ip code bind verbose)) =
    match detect env with
    | Returned camera_type =>
        if fst (check_dependencies (which env) camera_type)
        then proxy_effects
               (snd (run_proxy (proxy_env env) ip code bind camera_type))
        else []
    | Raised _ => []
    end.
Proof.
  unfold main. destruct (detect env) as [camera_type|e].
  - destruct (check_dependencies (which env) camera_type) as [ok missing].
    cbn [fst]. destruct ok; cbn [negb].
    + destruct (run_proxy (proxy_env env) ip code bind camera_type)
        as [r tr']. cbn [snd]. unfold proxy_effects.
      rewrite !filter_app. by destruct verbose.
    + cbn [snd]. unfold proxy_effects. rewrite !filter_app.
      fold (proxy_effects (missing ≫= hints)).
      rewrite proxy_effects_hints. by destruct verbose.
  - destruct (decide (e = RuntimeError)); cbn [snd]; unfold proxy_effects;
      rewrite ?filter_app; by destruct verbose.
Qed.

(** X11.  [main] starts a camera proxy only after the camera type was
    detected and every tool that proxy needs was found: for any started
    proxy the detected type selects it and [shutil.which] finds each of its
    tools.  When [main] leaves through [typer.Exit] the code is 1 and no
    proxy was constructed, started or stopped; this happens exactly when
    the detection raised [RuntimeError] or a dependency is missing. *)
Theorem main_gates_the_proxy env ip code bind verbose :
  (∀ k, ProxyStart k ∈ snd (main env ip code bind verbose) →
     ∃ camera_type,
       detect env = Returned camera_type ∧
       kind_of camera_type = Some k ∧
       ∀ tool, tool ∈ tools k → which env tool = true) ∧
  (∀ c, fst (main env ip code bind verbose) = Exit c →
     c = 1 ∧ proxy_effects (snd (main env ip code bind verbose)) = []) ∧
  (fst (main env ip code bind verbose) = Exit 1 ↔
   detect env = Raised RuntimeError ∨
   ∃ camera_type,
     detect env = Returned camera_type ∧
     snd (check_dependencies (which env) camera_type) ≠ []).
Proof.
  split_and!.
  - intros k Hin.
    assert (Hin' : ProxyStart k ∈
                   proxy_effects (snd (main env ip code bind verbose))).
    { unfold proxy_effects. by apply list_elem_of_filter. }
    rewrite main_proxy_effects in Hin'.
    destruct (detect env) as [camera_type|e];
      [|by apply elem_of_nil in Hin'].
    destruct (fst (check_dependencies (which env) camera_type)) eqn:Eok;
      [|by apply elem_of_nil in Hin'].
    rewrite run_proxy_proxy_effects in Hin'.
    exists camera_type. split; [done|].
    assert (Hk : kind_of camera_type = Some k).
    { destruct (handler_raises (proxy_env env) SIGINT);
        [by apply elem_of_nil in Hin'|].
      destruct (handler_raises (proxy_env env) SIGTERM);
        [by apply elem_of_nil in Hin'|].
      destruct (kind_of camera_type) as [k'|];
        [|by apply elem_of_nil in Hin'].
      apply elem_of_cons in Hin' as [[=]|Hin'].
      apply elem_of_cons in Hin' as [[= ->]|Hin']; [done|].
      apply elem_of_cons in Hin' as [[=]|Hin'].
      by apply elem_of_nil in Hin'. }
    split; [done|]. intros tool Htool.
    destruct (which env tool) eqn:Ew; [done|].
    apply check_dependencies_satisfied in Eok.
    assert (Hmiss : tool ∈ snd (check_dependencies (which env) camera_type)).
    { apply check_dependencies_missing. split; [done|]. by exists k. }
    rewrite Eok in Hmiss. by apply elem_of_nil in Hmiss.
  - intros c Hc. rewrite main_proxy_effects. unfold main in Hc.
    destruct (detect env) as [camera_type|e].
    + destruct (check_dependencies (which env) camera_type) as [ok missing].
      cbn [fst]. destruct ok; cbn [negb] in Hc.
      * destruct (run_proxy (proxy_env env) ip code bind camera_type)
          as [[[]|e'] tr']; cbn [fst] in Hc; discriminate Hc.
      * cbn [fst] in Hc. by injection Hc as <-.
    + destruct (decide (e = RuntimeError)); cbn [fst] in Hc; [|done].
      by injection Hc as <-.
  - unfold main. destruct (detect env) as [camera_type|e].
    + pose proof (check_dependencies_satisfied (which env) camera_type)
        as Hsat.
      destruct (check_dependencies (which env) camera_type)
        as [ok missing] eqn:Ecd.
      cbn [fst snd] in Hsat. destruct ok; cbn [negb].
      * destruct (run_proxy (proxy_env env) ip code bind camera_type)
          as [[[]|e'] tr']; cbn [fst]; split; try done.
        all: intros [[=]|(ct & [= <-] & Hne)]; rewrite Ecd in Hne;
          destruct Hne; by apply Hsat.
      * cbn [fst]. split; [|done]. intros _. right. exists camera_type.
        split; [done|]. rewrite Ecd. cbn [snd]. intros Hnil.
        apply Hsat in Hnil. done.
    + destruct (decide (e = RuntimeError)) as [->|Hne]; cbn [fst].
      * split; [by left|done].
      * split; [done|]. intros [[= ->]|(ct & [=] & _)]. done.
Qed.

Lemma main_gates_the_proxy_witness :
  fst (main {| detect := Returned "chamber"%string; which := no_openssl;
               proxy_env := calm |}
         "192.168.1.50" "12345678" "0.0.0.0" false) = Exit 1 ∧
  proxy_effects
    (snd (main {| detect := Returned "chamber"%string; which := no_openssl;
                  proxy_env := calm |}
            "192.168.1.50" "12345678" "0.0.0.0" false)) = [].
Proof.
  split; [reflexivity|].
  exact (proj2 (proj1 (proj2 (main_gates_the_proxy
           {| detect := Returned "chamber"%string; which := no_openssl;
              proxy_env := calm |}
           "192.168.1.50" "12345678" "0.0.0.0" false)) 1 eq_refl)).
Defined.

End CliExtras.

(** * Restarting the proxy *)

Section RestartExtras.

Lemma stop_listening ip w : world_ok ip w → listening (after (stop w)) = [].
Proof.
  intros Hok. rewrite stop_spec. unfold listening. cbn [after servers].
  rewrite (filter_none _ (closed_servers w)); [done|].
  intros srv [sid Hs]%list_elem_of_lookup.
  by rewrite (stop_no_listeners ip w sid srv Hok Hs).
Qed.

(** X12.  A stopped proxy can be started again: whatever happened before
    the [stop], a following [start] with all ports free returns normally
    and the proxy listens again on 990 and on every port from 2000 to
    2100, on new server objects, and on nothing else. *)
Theorem restart_listens_again ip addr ops bind :
  (∀ p, bind p = None) →
  outcome (start bind (after (stop (run ops (init ip addr))))) = Returned tt ∧
  listening (after (start bind (after (stop (run ops (init ip addr)))))) =
    990 :: seqZ 2000 101 ∧
  _control_server
    (proxy (after (start bind (after (stop (run ops (init ip addr))))))) =
    Some (length (servers (run ops (init ip addr)))).
Proof.
  intros Hall.
  pose proof (world_ok_run ip ops _ (world_ok_init ip addr)) as Hok.
  pose proof (world_ok_stop ip _ Hok) as Hok'.
  pose proof (stop_listening ip _ Hok) as Hnone.
  assert (Hrun : _running (proxy (after (stop (run ops (init ip addr)))))
                 = false) by by rewrite stop_spec.
  assert (Hlen : length (servers (after (stop (run ops (init ip addr))))) =
                 length (servers (run ops (init ip addr)))).
  { rewrite stop_spec. cbn [after servers]. unfold closed_servers.
    rewrite fold_alter_length.
    destruct (_control_server _); [apply length_alter|done]. }
  destruct (start_control_binds bind _ Hrun (Hall _))
    as (ps & Hs & Hp & _ & _ & Hret & Hos & _).
  assert (Hout : outcome (start bind (after (stop (run ops (init ip addr)))))
                 = Returned tt).
  { apply Hos. intros p e _. by rewrite Hall. }
  destruct (Hret Hout) as [-> _]. rewrite filter_all_bound in Hs by done.
  split_and!; [done| |by rewrite Hp, Hlen].
  unfold listening in *. rewrite Hs, filter_app, fmap_app, Hnone.
  rewrite filter_cons_True by done. cbn [fmap list_fmap app].
  rewrite filter_serving_data, bound_port_data.
  by rewrite (ok_port _ _ Hok').
Qed.

Lemma restart_listens_again_witness :
  length (listening (after (start all_free
            (after (stop (run busy_session fresh)))))) = 102%nat.
Proof.
  destruct (restart_listens_again "192.168.1.50" "0.0.0.0" busy_session
              all_free) as (_ & Hl & _); [reflexivity|].
  unfold fresh. by rewrite Hl.
Defined.

End RestartExtras.
